(** * Breach Protocol solver: a shallow embedding of [coreSolver-testing.js]

    The class [BreachProtocol] (identical in [coreSolver-testing.js] and
    [fromClaudeWithTesseractOcr/BreachProtocol.js]) is embedded function by
    function.  JavaScript values that the solver handles are strings and
    [undefined]; arrays are lists; the insertion-ordered [Set] of completed
    sequence indices is a duplicate-free list in insertion order; the [Set] of
    visited keys [`${row},${col}`] is a list of those strings, used through
    [has] and [add] only.  A property access on [undefined] raises
    [TypeError]; the recursion of [explorePath] is driven by a fuel argument
    and reports [OutOfFuel] when it is exhausted.  [bufferSize] is an
    integer; the default 7 of [solveBreachProtocol] is what a caller that
    omits the argument passes. *)

From Stdlib Require Import String Ascii Decimal DecimalString DecimalNat.
From Stdlib Require Import List Arith ZArith Lia Bool Permutation Sorted.
Import ListNotations.

Set Implicit Arguments.

(** ** JavaScript values and results *)

Inductive jsval : Type :=
| JUndefined : jsval
| JString : string -> jsval.

(** Strict equality [===] on strings and [undefined]. *)
Definition jsval_eqb (a b : jsval) : bool :=
  match a, b with
  | JUndefined, JUndefined => true
  | JString s, JString t => String.eqb s t
  | _, _ => false
  end.

Inductive result (A : Type) : Type :=
| Ok : A -> result A
| TypeError : result A
| OutOfFuel : result A.

Arguments TypeError {A}.
Arguments OutOfFuel {A}.

Definition bind {A B : Type} (r : result A) (k : A -> result B) : result B :=
  match r with
  | Ok a => k a
  | TypeError => TypeError
  | OutOfFuel => OutOfFuel
  end.

Notation "x <- c ;; k" := (bind c (fun x => k))
  (at level 61, c at next level, right associativity).

(** ** Data model *)

Record Position : Type := mkPosition {
  row : nat;
  col : nat;
  value : jsval
}.

Record Solution : Type := mkSolution {
  path : list Position;
  completedSequences : list nat
}.

Inductive Direction : Type := DirRow | DirCol.

(** ['row' ? 'col' : 'row'] of the recursive call. *)
Definition nextDir (d : Direction) : Direction :=
  match d with
  | DirRow => DirCol
  | DirCol => DirRow
  end.

(** ** Sets as the code uses them *)

Definition set_has (i : nat) (s : list nat) : bool := existsb (Nat.eqb i) s.

Definition set_add (i : nat) (s : list nat) : list nat :=
  if set_has i s then s else s ++ [i].

(** A non-negative integer inside a template literal: its decimal digits. *)
Definition numberToString (n : nat) : string :=
  NilEmpty.string_of_uint (Nat.to_uint n).

(** The key [`${row},${col}`]. *)
Definition posKey (r c : nat) : string :=
  (numberToString r ++ "," ++ numberToString c)%string.

Definition visited_has (k : string) (v : list string) : bool :=
  existsb (String.eqb k) v.

Definition visited_add (k : string) (v : list string) : list string :=
  if visited_has k v then v else v ++ [k].

(** ** [Array.prototype.sort] with a comparator

    The sort is stable; for a comparator that is a difference of integer
    keys the stable result is unique, and insertion from the right computes
    it: an element goes before the first later element that does not compare
    strictly below it. *)

Section Sort.
Variable A : Type.
Variable cmp : A -> A -> Z.

Fixpoint sort_insert (x : A) (l : list A) : list A :=
  match l with
  | [] => [x]
  | y :: l' => if (cmp x y <=? 0)%Z then x :: y :: l' else y :: sort_insert x l'
  end.

Definition js_sort (l : list A) : list A := fold_right sort_insert [] l.
End Sort.

(** ** The matrix *)

(** [codeMatrix[r][c]]: indexing [undefined] raises, an index past the end of
    a row reads [undefined]. *)
Definition cell (codeMatrix : list (list jsval)) (r c : nat) : result jsval :=
  match nth_error codeMatrix r with
  | None => TypeError
  | Some line => Ok (nth c line JUndefined)
  end.

(** A for loop over [0 .. n-1] whose body may raise and may push one item. *)
Fixpoint collect {A : Type} (body : nat -> result (option A)) (idx : list nat)
  : result (list A) :=
  match idx with
  | [] => Ok []
  | i :: rest =>
      o <- body i ;;
      l <- collect body rest ;;
      Ok (match o with Some a => a :: l | None => l end)
  end.

(** ** The solver class *)

Section BreachProtocol.
Variable codeMatrix : list (list jsval).
Variable requiredSequences : list (list jsval).
Variable bufferSize : Z.

Definition size : nat := length codeMatrix.

(** *** isSubsequence *)

(** The loop of [isSubsequence]: [i] walks [array], [subIdx] is returned. *)
Fixpoint isSubsequence_loop (array subsequence : list jsval) (subIdx : nat) : nat :=
  match array with
  | [] => subIdx
  | a :: rest =>
      if subIdx <? length subsequence then
        if jsval_eqb a (nth subIdx subsequence JUndefined)
        then isSubsequence_loop rest subsequence (S subIdx)
        else isSubsequence_loop rest subsequence subIdx
      else subIdx
  end.

Definition isSubsequence (array subsequence : list jsval) : bool :=
  isSubsequence_loop array subsequence 0 =? length subsequence.

(** *** evaluateMove *)

(** The inner loop of [evaluateMove]; [pathIdx] walks [testPath]. *)
Fixpoint matchCount_loop (testPath sequence : list jsval) (seqIdx matchCount : nat) : nat :=
  match testPath with
  | [] => matchCount
  | t :: rest =>
      if seqIdx <? length sequence then
        if jsval_eqb t (nth seqIdx sequence JUndefined)
        then matchCount_loop rest sequence (S seqIdx) (S matchCount)
        else matchCount_loop rest sequence seqIdx matchCount
      else matchCount
  end.

Definition evaluateMove (currentPath : list jsval) (nextValue : jsval)
           (completed : list nat) : Z :=
  fold_left
    (fun (score : Z) (i : nat) =>
       if negb (set_has i completed) then
         let sequence := nth i requiredSequences [] in
         let testPath := currentPath ++ [nextValue] in
         let matchCount := matchCount_loop testPath sequence 0 0 in
         if matchCount =? length sequence
         then (score - 1000)%Z
         else (score - Z.of_nat matchCount * 10)%Z
       else score)
    (seq 0 (length requiredSequences)) 0%Z.

(** *** explorePath *)

(** Lines 59-70: the indices completed by [pathValues], added in index
    order to a copy of the caller's set. *)
Definition checkCompleted (pathValues : list jsval) (completed : list nat) : list nat :=
  fold_left
    (fun (newCompleted : list nat) (i : nat) =>
       if negb (set_has i completed) then
         if isSubsequence pathValues (nth i requiredSequences [])
         then set_add i newCompleted
         else newCompleted
       else newCompleted)
    (seq 0 (length requiredSequences)) completed.

(** Lines 84-108: the unvisited cells of the last position's column or row. *)
Definition possibleMoves (lastPos : Position) (visited : list string)
           (nextDirection : Direction) : result (list Position) :=
  match nextDirection with
  | DirCol =>
      collect (fun r =>
                 if negb (visited_has (posKey r (col lastPos)) visited) then
                   v <- cell codeMatrix r (col lastPos) ;;
                   Ok (Some (mkPosition r (col lastPos) v))
                 else Ok None)
              (seq 0 size)
  | DirRow =>
      collect (fun c =>
                 if negb (visited_has (posKey (row lastPos) c) visited) then
                   v <- cell codeMatrix (row lastPos) c ;;
                   Ok (Some (mkPosition (row lastPos) c v))
                 else Ok None)
              (seq 0 size)
  end.

(** The replacement test of lines 128-131. *)
Definition better (solution : Solution) (bestSolution : option Solution) : bool :=
  match bestSolution with
  | None => true
  | Some best =>
      (length (completedSequences best) <? length (completedSequences solution))
      || ((length (completedSequences solution) =? length (completedSequences best))
          && (length (path solution) <? length (path best)))
  end.

(** Lines 117-142: the loop over the sorted moves, with its early return. *)
Fixpoint tryMoves (explore : Position -> result (option Solution))
         (moves : list Position) (bestSolution : option Solution)
  : result (option Solution) :=
  match moves with
  | [] => Ok bestSolution
  | move :: rest =>
      r <- explore move ;;
      match r with
      | Some solution =>
          let bestSolution' :=
            if better solution bestSolution then Some solution else bestSolution in
          if length (completedSequences solution) =? length requiredSequences
          then Ok (Some solution)
          else tryMoves explore rest bestSolution'
      | None => tryMoves explore rest bestSolution
      end
  end.

Fixpoint explorePath (fuel : nat) (currentPath : list Position)
         (visited : list string) (nextDirection : Direction)
         (completed : list nat) {struct fuel} : result (option Solution) :=
  match fuel with
  | O => OutOfFuel
  | S fuel' =>
      if (bufferSize <=? Z.of_nat (length currentPath))%Z then
        Ok (Some (mkSolution currentPath completed))
      else
        let pathValues := map value currentPath in
        let newCompletedSequences := checkCompleted pathValues completed in
        if length newCompletedSequences =? length requiredSequences then
          Ok (Some (mkSolution currentPath newCompletedSequences))
        else
          match nth_error currentPath (length currentPath - 1) with
          | None => TypeError
          | Some lastPos =>
              moves <- possibleMoves lastPos visited nextDirection ;;
              let sorted :=
                js_sort (fun a b =>
                           (evaluateMove pathValues (value a) newCompletedSequences
                            - evaluateMove pathValues (value b) newCompletedSequences)%Z)
                        moves in
              tryMoves
                (fun move =>
                   explorePath fuel' (currentPath ++ [move])
                               (visited_add (posKey (row move) (col move)) visited)
                               (nextDir nextDirection) newCompletedSequences)
                sorted None
          end
  end.

(** *** solve *)

(** Lines 19-31: one search per top-row column. *)
Definition candidates (fuel : nat) : result (list Solution) :=
  collect (fun c =>
             initialButton <- cell codeMatrix 0 c ;;
             explorePath fuel [mkPosition 0 c initialButton] [posKey 0 c] DirCol [])
          (seq 0 size).

Definition emptySolution : Solution := mkSolution [] [].

(** Lines 33-39.  The sorted array is as long as [solutions], so
    [solutions[0]] is defined and the empty branch of the inner match is
    never taken. *)
Definition solve (fuel : nat) : result Solution :=
  solutions <- candidates fuel ;;
  match solutions with
  | [] => Ok emptySolution
  | _ :: _ =>
      match js_sort (fun a b =>
                       (Z.of_nat (length (completedSequences b))
                        - Z.of_nat (length (completedSequences a)))%Z)
                    solutions with
      | [] => TypeError
      | s :: _ => Ok s
      end
  end.

End BreachProtocol.

Definition solveBreachProtocol (fuel : nat) (codeMatrix : list (list jsval))
           (requiredSequences : list (list jsval)) (bufferSize : Z) : result Solution :=
  solve codeMatrix requiredSequences bufferSize fuel.

(** ** Fixtures *)

Open Scope string_scope.

Definition AA : jsval := JString "AA".
Definition BB : jsval := JString "BB".

Definition gridA : list (list jsval) := [[AA; BB]; [BB; AA]].

Definition ZZ : jsval := JString "ZZ".
Definition J : string -> jsval := JString.

(** The path of two positions from the first column of [gridA]. *)
Definition pathAB : list Position := [mkPosition 0 0 AA; mkPosition 1 0 BB].

(** The matrix and sequences of [main] in [coreSolver-testing.js]. *)
Definition mainMatrix : list (list jsval) :=
  map (map J)
      [["7A"; "BD"; "E9"; "7A"; "7A"; "E9"; "BD"];
       ["7A"; "55"; "BD"; "55"; "1C"; "1C"; "7A"];
       ["FF"; "BD"; "7A"; "FF"; "7A"; "1C"; "BD"];
       ["E9"; "1C"; "55"; "55"; "1C"; "1C"; "55"];
       ["7A"; "E9"; "E9"; "55"; "1C"; "55"; "55"];
       ["E9"; "55"; "7A"; "E9"; "55"; "55"; "55"];
       ["BD"; "1C"; "1C"; "FF"; "1C"; "FF"; "BD"]].

Definition mainSequences : list (list jsval) :=
  map (map J) [["55"; "1C"]; ["7A"; "E9"]].

(** The dead end of three positions from the first column of [gridA]. *)
Definition pathABA : list Position :=
  [mkPosition 0 0 AA; mkPosition 1 0 BB; mkPosition 1 1 AA].

(** The path of four positions that visits every cell of [gridA]. *)
Definition pathABAB : list Position :=
  [mkPosition 0 0 AA; mkPosition 1 0 BB; mkPosition 1 1 AA; mkPosition 0 1 BB].

(** A 3x3 matrix whose first column offers two moves from the top. *)
Definition CC : jsval := JString "CC".

Definition gridC : list (list jsval) :=
  [[AA; BB; CC]; [CC; AA; BB]; [BB; CC; AA]].

(** The two results below the start (0,0) of [gridC] with buffer size 3. *)
Definition pathCBest : list Position :=
  [mkPosition 0 0 AA; mkPosition 2 0 BB; mkPosition 2 1 CC].

Definition pathCOther : list Position :=
  [mkPosition 0 0 AA; mkPosition 1 0 CC; mkPosition 1 2 BB].

(** A session of the interactive command line: the answers typed, and the
    built-in functions on the strings of that session. *)
Definition sessionAnswers : list string :=
  ["2"; "AA BB"; "BB AA"; "1"; "AA BB"; "0"].

Definition sessionParseInt (s : string) : option Z :=
  if String.eqb s "2" then Some 2%Z
  else if String.eqb s "1" then Some 1%Z
  else if String.eqb s "0" then Some 0%Z
  else None.

Definition sessionSplit (s : string) : list string :=
  if String.eqb s "AA BB" then ["AA"; "BB"]
  else if String.eqb s "BB AA" then ["BB"; "AA"]
  else [s].

Close Scope string_scope.

(** ** Predicates of the statements *)

(** The unmatched suffix of [subsequence] after the two-pointer scan of
    [array]: the list view of [isSubsequence_loop]. *)
Fixpoint scan (array subsequence : list jsval) : list jsval :=
  match array, subsequence with
  | [], _ => subsequence
  | _ :: _, [] => []
  | a :: rest, s :: sub' =>
      if jsval_eqb a s then scan rest sub' else scan rest subsequence
  end.

(** [idx] is a strictly increasing index assignment [i0 < i1 < ... < ik]
    into [array] with [array[i_j] = subsequence[j]] for every [j]. *)
Definition embedding (array subsequence : list jsval) (idx : list nat) : Prop :=
  StronglySorted lt idx /\
  Forall2 (fun i s => nth_error array i = Some s) idx subsequence.

(** No character of the string is a comma. *)
Fixpoint commaFree (s : string) : Prop :=
  match s with
  | EmptyString => True
  | String c s' => c <> ","%char /\ commaFree s'
  end.

(** Every row is as long as the matrix has rows. *)
Definition squareGrid (codeMatrix : list (list jsval)) : Prop :=
  Forall (fun line => length line = length codeMatrix) codeMatrix.

(** The first position is in row 0; position [i >= 1] keeps the column of
    position [i-1] when [i] is odd and its row when [i] is even. *)
Definition movementLegal (p : list Position) : Prop :=
  (forall p0, nth_error p 0 = Some p0 -> row p0 = 0) /\
  (forall i a b, 1 <= i -> nth_error p (i - 1) = Some a -> nth_error p i = Some b ->
                 if Nat.odd i then col b = col a else row b = row a).

(** A candidate path of the puzzle: positions of the matrix with their
    tokens, movement-legal, no coordinate twice, at most [bufferSize] long. *)
Definition candidatePath (codeMatrix : list (list jsval)) (bufferSize : Z)
           (p : list Position) : Prop :=
  movementLegal p /\
  NoDup (map (fun q => (row q, col q)) p) /\
  (Z.of_nat (length p) <= bufferSize)%Z /\
  Forall (fun q => cell codeMatrix (row q) (col q) = Ok (value q) /\
                   col q < length codeMatrix) p.

(** The number of required sequences that are subsequences of [pathValues]. *)
Definition completedCount (requiredSequences : list (list jsval))
           (pathValues : list jsval) : nat :=
  length (filter (isSubsequence pathValues) requiredSequences).

(** The comparator [(a, b) => key(a) - key(b)]. *)
Definition byKey {A : Type} (key : A -> Z) (a b : A) : Z := (key a - key b)%Z.

(** ** The callers of the solver *)

(** *** [cyberpunk-ocr-cli.js]: cleaning the OCR result *)

(** [arr.includes(x)] on an array of strings and [undefined]. *)
Definition includes (x : jsval) (arr : list jsval) : bool :=
  existsb (jsval_eqb x) arr.

(** The token ['??'] of an unreadable cell. *)
Definition unknownCode : jsval := JString "??".

(** [counts[value] = (counts[value] || 0) + 1] of [findMostCommon], for the
    array lengths it is called with.  The keys of [counts] are the decimal
    strings of these numbers; keys that are array indices enumerate in
    ascending numeric order, so the object is the list of its (number,
    count) pairs in that order. *)
Fixpoint counts_incr (value : nat) (counts : list (nat * nat)) : list (nat * nat) :=
  match counts with
  | [] => [(value, 1)]
  | (k, c) :: rest =>
      if value =? k then (k, c + 1) :: rest
      else if value <? k then (value, 1) :: (k, c) :: rest
      else (k, c) :: counts_incr value rest
  end.

(** [counts[value] || 0]. *)
Fixpoint counts_get (value : nat) (counts : list (nat * nat)) : nat :=
  match counts with
  | [] => 0
  | (k, c) :: rest => if value =? k then c else counts_get value rest
  end.

(** [Object.entries(counts)]: the keys are strings. *)
Definition entries (counts : list (nat * nat)) : list (string * nat) :=
  map (fun kc => (numberToString (fst kc), snd kc)) counts.

(** Lines 148-157.  [[0][0]] of an empty array of entries reads a property
    of [undefined]. *)
Definition findMostCommon (arr : list nat) : result string :=
  let counts := fold_left (fun counts value => counts_incr value counts) arr [] in
  match js_sort (fun a b => (Z.of_nat (snd b) - Z.of_nat (snd a))%Z) (entries counts) with
  | [] => TypeError
  | e :: _ => Ok (fst e)
  end.

(** The two kinds of value that line 133 compares with [===]. *)
Inductive jsprim : Type :=
| PNumber : nat -> jsprim
| PString : string -> jsprim.

Definition strictEq (a b : jsprim) : bool :=
  match a, b with
  | PNumber m, PNumber n => m =? n
  | PString s, PString t => String.eqb s t
  | _, _ => false
  end.

(** Lines 124-141.  The second component tells whether the warning of
    line 137 is printed. *)
Definition cleanMatrix (matrix : list (list jsval))
  : result (list (list jsval) * bool) :=
  let filteredMatrix := filter (fun row => negb (includes unknownCode row)) matrix in
  let rowLengths := map (fun row : list jsval => length row) filteredMatrix in
  mostCommonLength <- findMostCommon rowLengths ;;
  let cleanedMatrix :=
    filter (fun row => strictEq (PNumber (length row)) (PString mostCommonLength))
           filteredMatrix in
  Ok (cleanedMatrix, length cleanedMatrix <? 3).


(** *** The interactive command line

    [main] asks its questions in a fixed order; the answers typed are a
    list, and a question with no answer left waits.  [parseInt] and
    [s.trim().split(/\s+/)] are the built-in functions, taken as they are:
    [parseInt] gives [None] for [NaN]. *)

Inductive outcome : Type :=
| InvalidSize : outcome
| InvalidNumber : outcome
| AwaitingInput : outcome
| Solve : list (list jsval) -> list (list jsval) -> option Z -> bool -> outcome.

Section CommandLine.
Variable parseInt : string -> option Z.
Variable splitTokens : string -> list string.

(** The loop that reads the matrix: a row that does not have [size] values
    is asked again. *)
Fixpoint readRows (size : Z) (remaining : nat) (answers : list string)
         (codeMatrix : list (list string)) {struct answers}
  : option (list (list string) * list string) :=
  match remaining with
  | O => Some (codeMatrix, answers)
  | S remaining' =>
      match answers with
      | [] => None
      | rowStr :: rest =>
          let row := splitTokens rowStr in
          if negb (Z.of_nat (length row) =? size)%Z
          then readRows size remaining rest codeMatrix
          else readRows size remaining' rest (codeMatrix ++ [row])
      end
  end.

(** The loop that reads the sequences: an empty array of values is asked
    again. *)
Fixpoint readSequences (remaining : nat) (answers : list string)
         (requiredSequences : list (list string)) {struct answers}
  : option (list (list string) * list string) :=
  match remaining with
  | O => Some (requiredSequences, answers)
  | S remaining' =>
      match answers with
      | [] => None
      | sequenceStr :: rest =>
          let sequence := splitTokens sequenceStr in
          if length sequence <? 1
          then readSequences remaining rest requiredSequences
          else readSequences remaining' rest (requiredSequences ++ [sequence])
      end
  end.

(** [main] up to the call of the solver: [Solve m seqs b warned] is the call
    [solveBreachProtocol(m, seqs, b)], and [warned] tells whether "Invalid
    buffer size. Using default (7)." was printed before it. *)
Definition main (answers : list string) : outcome :=
  match answers with
  | [] => AwaitingInput
  | sizeStr :: answers =>
      match parseInt sizeStr with
      | None => InvalidSize
      | Some size =>
          if (size <? 2)%Z then InvalidSize
          else
            match readRows size (Z.to_nat size) answers [] with
            | None => AwaitingInput
            | Some (codeMatrix, answers) =>
                match answers with
                | [] => AwaitingInput
                | numSequencesStr :: answers =>
                    match parseInt numSequencesStr with
                    | None => InvalidNumber
                    | Some numSequences =>
                        if (numSequences <? 1)%Z then InvalidNumber
                        else
                          match readSequences (Z.to_nat numSequences) answers [] with
                          | None => AwaitingInput
                          | Some (requiredSequences, answers) =>
                              match answers with
                              | [] => AwaitingInput
                              | bufferSizeStr :: _ =>
                                  let bufferSize :=
                                    match bufferSizeStr with
                                    | EmptyString => Some 7%Z
                                    | _ => parseInt bufferSizeStr
                                    end in
                                  let warned :=
                                    match bufferSize with
                                    | None => true
                                    | Some b => (b <? 1)%Z
                                    end in
                                  Solve (map (map JString) codeMatrix)
                                        (map (map JString) requiredSequences)
                                        bufferSize warned
                              end
                          end
                    end
                end
            end
      end
  end.
End CommandLine.

Unset Implicit Arguments.

(** ** Strict equality and the subsequence scan *)

Lemma jsval_eqb_eq (a b : jsval) : jsval_eqb a b = true <-> a = b.
Proof.
  destruct a as [|s], b as [|t]; simpl; split; intro H;
    try reflexivity; try discriminate.
  - apply String.eqb_eq in H. now subst.
  - injection H as ->. apply String.eqb_refl.
Qed.

Lemma jsval_eqb_refl (a : jsval) : jsval_eqb a a = true.
Proof. now apply jsval_eqb_eq. Qed.

Lemma scan_nil_r (array : list jsval) : scan array [] = [].
Proof. now destruct array. Qed.

Lemma scan_length (array sub : list jsval) : length (scan array sub) <= length sub.
Proof.
  revert sub. induction array as [|a rest IH]; intros sub; simpl; [lia|].
  destruct sub as [|s sub']; simpl; [lia|].
  destruct (jsval_eqb a s).
  - specialize (IH sub'). lia.
  - apply (IH (s :: sub')).
Qed.

(** The index loop returns the number of matched tokens. *)
Lemma isSubsequence_loop_scan (array sub : list jsval) (k : nat) :
  k <= length sub ->
  isSubsequence_loop array sub k = length sub - length (scan array (skipn k sub)).
Proof.
  revert k. induction array as [|a rest IH]; intros k Hk; simpl.
  - rewrite length_skipn. lia.
  - destruct (Nat.ltb_spec k (length sub)) as [Hlt|Hge].
    + destruct (nth_error sub k) as [s|] eqn:Hn.
      2:{ apply nth_error_None in Hn. lia. }
      assert (Hs : skipn k sub = s :: skipn (S k) sub).
      { clear -Hn. revert k Hn. induction sub as [|x sub IHs]; intros [|k] Hn;
          simpl in *; try discriminate.
        - now injection Hn as ->.
        - now apply IHs. }
      rewrite Hs. rewrite (nth_error_nth _ _ JUndefined Hn).
      destruct (jsval_eqb a s).
      * apply IH. lia.
      * rewrite <- Hs. apply IH. lia.
    + assert (k = length sub) by lia. subst k.
      rewrite skipn_all. simpl. lia.
Qed.

Lemma isSubsequence_scan (array sub : list jsval) :
  isSubsequence array sub = true <-> scan array sub = [].
Proof.
  unfold isSubsequence.
  rewrite isSubsequence_loop_scan by lia. simpl.
  pose proof (scan_length array sub) as Hl.
  rewrite Nat.eqb_eq. split; intro H.
  - destruct (scan array sub); [reflexivity|simpl in *; lia].
  - rewrite H. simpl. lia.
Qed.

Lemma scan_app (p q sub : list jsval) : scan p sub = [] -> scan (p ++ q) sub = [].
Proof.
  revert sub. induction p as [|a rest IH]; intros sub H; simpl in *.
  - subst. apply scan_nil_r.
  - destruct sub as [|s sub']; [reflexivity|].
    destruct (jsval_eqb a s); now apply IH.
Qed.

(** A sequence completed by a path stays completed when the path grows. *)
Lemma isSubsequence_app (p q sub : list jsval) :
  isSubsequence p sub = true -> isSubsequence (p ++ q) sub = true.
Proof. rewrite !isSubsequence_scan. apply scan_app. Qed.

Lemma embedding_shift (a : jsval) (rest sub : list jsval) (idx : list nat) :
  embedding rest sub idx -> embedding (a :: rest) sub (map S idx).
Proof.
  intros [Hs Hf]. split.
  - clear Hf. induction Hs as [|i l Hs IH Hall]; simpl; constructor; auto.
    rewrite Forall_map. eapply Forall_impl; [|exact Hall]. simpl. lia.
  - clear Hs. induction Hf; simpl; constructor; auto.
Qed.

Lemma embedding_unshift (a : jsval) (rest sub : list jsval) (idx : list nat) :
  embedding (a :: rest) sub idx -> Forall (fun i => 1 <= i) idx ->
  embedding rest sub (map pred idx).
Proof.
  intros [Hs Hf] Hpos. split.
  - clear Hf. induction Hs as [|i l Hs IH Hall]; simpl; constructor.
    + apply IH. now inversion Hpos.
    + inversion Hpos as [|? ? Hi Hl]; subst.
      rewrite Forall_map. rewrite Forall_forall in *.
      intros x Hx. specialize (Hall x Hx). specialize (Hl x Hx). lia.
  - clear Hs. induction Hf as [|i s l l' Hi Hf IH]; simpl; constructor.
    + inversion Hpos; subst. destruct i; [lia|exact Hi].
    + apply IH. now inversion Hpos.
Qed.

Lemma scan_embedding (array sub : list jsval) :
  scan array sub = [] -> exists idx, embedding array sub idx.
Proof.
  revert sub. induction array as [|a rest IH]; intros sub H; simpl in H.
  - subst. exists []. split; constructor.
  - destruct sub as [|s sub'].
    + exists []. split; constructor.
    + destruct (jsval_eqb a s) eqn:E.
      * apply jsval_eqb_eq in E. subst s.
        destruct (IH _ H) as [idx Hidx].
        exists (0 :: map S idx).
        destruct (embedding_shift a _ _ _ Hidx) as [Hs Hf].
        split; constructor; auto.
        rewrite Forall_map. apply Forall_forall. intros; lia.
      * destruct (IH _ H) as [idx Hidx].
        exists (map S idx). now apply embedding_shift.
Qed.

Lemma embedding_scan (array sub : list jsval) (idx : list nat) :
  embedding array sub idx -> scan array sub = [].
Proof.
  revert sub idx. induction array as [|a rest IH]; intros sub idx [Hs Hf]; simpl.
  - destruct Hf as [|i s l l' Hi _]; [reflexivity|].
    now destruct i.
  - destruct sub as [|s sub']; [reflexivity|].
    inversion Hf as [|i s' l l' Hi Hf']; subst.
    inversion Hs as [|? ? Hs' Hall]; subst.
    destruct (jsval_eqb a s) eqn:E.
    + apply (IH sub' (map pred l)).
      apply embedding_unshift with (a := a); [now split|].
      eapply Forall_impl; [|exact Hall]. simpl. lia.
    + apply (IH (s :: sub') (map pred (i :: l))).
      apply embedding_unshift with (a := a); [now split|].
      assert (1 <= i).
      { destruct i; [|lia]. simpl in Hi. injection Hi as ->.
        rewrite jsval_eqb_refl in E. discriminate. }
      constructor; [assumption|].
      eapply Forall_impl; [|exact Hall]. simpl. lia.
Qed.

(** C9: [isSubsequence array subsequence] returns true exactly when some
    strictly increasing index assignment [i0 < i1 < ... < ik] into [array]
    has [array[i_j] = subsequence[j]] for every [j] (non-contiguous
    subsequence containment). *)
Theorem isSubsequence_iff_embedding (array subsequence : list jsval) :
  isSubsequence array subsequence = true <->
  exists idx, embedding array subsequence idx.
Proof.
  rewrite isSubsequence_scan. split.
  - apply scan_embedding.
  - intros [idx H]. exact (embedding_scan _ _ _ H).
Qed.

(** ** Loops and sorting *)

Lemma bind_Ok {A B : Type} (r : result A) (k : A -> result B) (b : B) :
  bind r k = Ok b -> exists a, r = Ok a /\ k a = Ok b.
Proof. destruct r; simpl; intro H; try discriminate. eauto. Qed.

Lemma collect_In {A : Type} (body : nat -> result (option A)) (idx : list nat)
      (l : list A) (a : A) :
  collect body idx = Ok l -> In a l ->
  exists i, In i idx /\ body i = Ok (Some a).
Proof.
  revert l. induction idx as [|i rest IH]; intros l H Ha; simpl in H.
  - injection H as <-. destruct Ha.
  - apply bind_Ok in H as [o [Ho H]].
    apply bind_Ok in H as [l' [Hl' H]].
    injection H as <-.
    destruct o as [x|].
    + destruct Ha as [<-|Ha].
      * exists i. split; [now left|exact Ho].
      * destruct (IH _ Hl' Ha) as [j [Hj Hb]]. exists j. split; [now right|exact Hb].
    + destruct (IH _ Hl' Ha) as [j [Hj Hb]]. exists j. split; [now right|exact Hb].
Qed.

Lemma collect_Ok {A : Type} (body : nat -> result (option A)) (idx : list nat) :
  (forall i, In i idx -> exists o, body i = Ok o) ->
  exists l, collect body idx = Ok l.
Proof.
  induction idx as [|i rest IH]; intros H; simpl.
  - now exists [].
  - destruct (H i (or_introl eq_refl)) as [o Ho].
    destruct IH as [l Hl]. { intros j Hj. apply H. now right. }
    rewrite Ho, Hl. simpl. eauto.
Qed.

Lemma collect_ext {A : Type} (f g : nat -> result (option A)) (idx : list nat) :
  (forall i, In i idx -> f i = g i) -> collect f idx = collect g idx.
Proof.
  induction idx as [|i rest IH]; intros H; simpl; [reflexivity|].
  rewrite (H i (or_introl eq_refl)), IH; [reflexivity|].
  intros j Hj. apply H. now right.
Qed.

(** An index whose body pushes an item makes the collected list non-empty. *)
Lemma collect_nonempty {A : Type} (body : nat -> result (option A)) (idx : list nat)
      (l : list A) (i : nat) (a : A) :
  collect body idx = Ok l -> In i idx -> body i = Ok (Some a) -> l <> [].
Proof.
  revert l. induction idx as [|j rest IH]; intros l H Hi Hb; simpl in H.
  - destruct Hi.
  - apply bind_Ok in H as [o [Ho H]].
    apply bind_Ok in H as [l' [Hl' H]].
    injection H as <-.
    destruct Hi as [->|Hi].
    + rewrite Hb in Ho. injection Ho as <-. discriminate.
    + specialize (IH _ Hl' Hi Hb). destruct o; [discriminate|exact IH].
Qed.

Section SortFacts.
Variable A : Type.
Variable cmp : A -> A -> Z.

Lemma sort_insert_perm (x : A) (l : list A) :
  Permutation (x :: l) (sort_insert cmp x l).
Proof.
  induction l as [|y l IH]; simpl; [reflexivity|].
  destruct (cmp x y <=? 0)%Z; [reflexivity|].
  rewrite perm_swap. now constructor.
Qed.

(** The sorted array is a rearrangement of the array. *)
Lemma js_sort_perm (l : list A) : Permutation l (js_sort cmp l).
Proof.
  induction l as [|x l IH]; simpl; [constructor|].
  rewrite <- sort_insert_perm. now constructor.
Qed.

Lemma js_sort_In (l : list A) (x : A) : In x (js_sort cmp l) <-> In x l.
Proof.
  split; apply Permutation_in; [symmetry|]; apply js_sort_perm.
Qed.

Lemma js_sort_nonempty (l : list A) : l <> [] -> js_sort cmp l <> [].
Proof.
  intros H E. apply H. apply Permutation_nil. rewrite <- E. symmetry.
  apply js_sort_perm.
Qed.
End SortFacts.

(** For a comparator that subtracts integer keys, [js_sort] orders by key and
  keeps the items of equal key in their original order: it is the stable
  sort that [Array.prototype.sort] specifies. *)
Section KeyedSort.
Variable A : Type.
Variable key : A -> Z.

Lemma sort_insert_sorted (x : A) (l : list A) :
  StronglySorted (fun a b => (key a <= key b)%Z) l ->
  StronglySorted (fun a b => (key a <= key b)%Z) (sort_insert (byKey key) x l).
Proof.
  induction 1 as [|y l Hs IH Hall]; simpl.
  - constructor; constructor.
  - unfold byKey at 1. destruct (Z.leb_spec (key x - key y) 0) as [Hle|Hgt].
    + constructor; [now constructor|].
      constructor; [lia|].
      eapply Forall_impl; [|exact Hall]. simpl. intros; lia.
    + constructor; [exact IH|].
      rewrite Forall_forall. intros z Hz.
      apply (Permutation_in _ (Permutation_sym (sort_insert_perm A (byKey key) x l))) in Hz.
      destruct Hz as [<-|Hz]; [lia|].
      rewrite Forall_forall in Hall. now apply Hall.
Qed.

Lemma js_sort_sorted (l : list A) :
  StronglySorted (fun a b => (key a <= key b)%Z) (js_sort (byKey key) l).
Proof.
  induction l as [|x l IH]; simpl; [constructor|].
  now apply sort_insert_sorted.
Qed.

Lemma sort_insert_stable (k : Z) (x : A) (l : list A) :
  filter (fun a => (key a =? k)%Z) (sort_insert (byKey key) x l)
  = filter (fun a => (key a =? k)%Z) (x :: l).
Proof.
  induction l as [|y l IH]; [reflexivity|].
  simpl sort_insert. unfold byKey at 1.
  destruct (Z.leb_spec (key x - key y) 0) as [Hle|Hgt]; [reflexivity|].
  simpl in *. rewrite IH.
  destruct (Z.eqb_spec (key x) k), (Z.eqb_spec (key y) k); try reflexivity; lia.
Qed.

Lemma js_sort_stable (k : Z) (l : list A) :
  filter (fun a => (key a =? k)%Z) (js_sort (byKey key) l)
  = filter (fun a => (key a =? k)%Z) l.
Proof.
  induction l as [|x l IH]; [reflexivity|].
  simpl js_sort. rewrite sort_insert_stable. simpl. now rewrite IH.
Qed.

(** The first item of the sorted array is the earliest item of least key. *)
Lemma js_sort_head (l : list A) (s : A) (t : list A) :
  js_sort (byKey key) l = s :: t ->
  exists k, nth_error l k = Some s /\
            (forall x, In x l -> (key s <= key x)%Z) /\
            (forall j x, j < k -> nth_error l j = Some x -> (key s < key x)%Z).
Proof.
  revert s t. induction l as [|x l IH]; intros s t H; simpl in H; [discriminate|].
  destruct (js_sort (byKey key) l) as [|y t'] eqn:E; simpl in H.
  - injection H as <- <-.
    assert (l = []) as ->.
    { destruct l as [|z l]; [reflexivity|].
      exfalso. apply (@js_sort_nonempty _ (byKey key) (z :: l)); [discriminate|exact E]. }
    exists 0. repeat split; auto.
    + intros z [<-|[]]. lia.
    + intros; lia.
  - destruct (IH _ _ eq_refl) as [k [Hk [Hmin Hfirst]]].
    unfold byKey at 1 in H.
    destruct (Z.leb_spec (key x - key y) 0) as [Hle|Hgt].
    + injection H as <- <-.
      exists 0. repeat split; auto.
      * intros z [<-|Hz]; [lia|]. specialize (Hmin z Hz). lia.
      * intros; lia.
    + injection H as <- <-.
      exists (S k). repeat split; auto.
      * intros z [<-|Hz]; [lia|]. now apply Hmin.
      * intros [|j] z Hj Hz; simpl in Hz.
        -- injection Hz as <-. lia.
        -- apply (Hfirst j); [lia|exact Hz].
Qed.
End KeyedSort.

Lemma js_sort_ext {A : Type} (f g : A -> A -> Z) (l : list A) :
  (forall a b, f a b = g a b) -> js_sort f l = js_sort g l.
Proof.
  intros H. induction l as [|x l IH]; simpl; [reflexivity|].
  rewrite IH. generalize (js_sort g l). intros t.
  induction t as [|y t IHt]; simpl; [reflexivity|].
  now rewrite H, IHt.
Qed.

(** ** The search *)

Section Search.
Variable codeMatrix : list (list jsval).
Variable requiredSequences : list (list jsval).
Variable bufferSize : Z.

Local Abbreviation N := (size codeMatrix).
Local Abbreviation explore := (explorePath codeMatrix requiredSequences bufferSize).
Local Abbreviation newCompleted := (checkCompleted requiredSequences).

Lemma explorePath_S (fuel : nat) (p : list Position) (v : list string)
      (d : Direction) (cs : list nat) :
  explore (S fuel) p v d cs =
  if (bufferSize <=? Z.of_nat (length p))%Z then Ok (Some (mkSolution p cs))
  else if length (newCompleted (map value p) cs) =? length requiredSequences
       then Ok (Some (mkSolution p (newCompleted (map value p) cs)))
       else match nth_error p (length p - 1) with
            | None => TypeError
            | Some lastPos =>
                moves <- possibleMoves codeMatrix lastPos v d ;;
                tryMoves requiredSequences
                  (fun move => explore fuel (p ++ [move])
                                       (visited_add (posKey (row move) (col move)) v)
                                       (nextDir d) (newCompleted (map value p) cs))
                  (js_sort (fun a b =>
                              (evaluateMove requiredSequences (map value p) (value a)
                                            (newCompleted (map value p) cs)
                               - evaluateMove requiredSequences (map value p) (value b)
                                              (newCompleted (map value p) cs))%Z)
                           moves)
                  None
            end.
Proof. reflexivity. Qed.

(** Whatever the loop over the moves returns was returned by one of the
    recursive calls, or was the best solution it started from. *)
Lemma tryMoves_Some (f : Position -> result (option Solution))
      (moves : list Position) (best : option Solution) (s : Solution) :
  tryMoves requiredSequences f moves best = Ok (Some s) ->
  best = Some s \/ exists move, In move moves /\ f move = Ok (Some s).
Proof.
  revert best. induction moves as [|m rest IH]; intros best H; simpl in H.
  - left. now injection H.
  - apply bind_Ok in H as [r [Hr H]].
    destruct r as [sol|].
    + destruct (length (completedSequences sol) =? length requiredSequences).
      * injection H as <-. right. exists m. split; [now left|exact Hr].
      * destruct (IH _ H) as [Hb|[m' [Hin Hm']]].
        -- destruct (better sol best).
           ++ injection Hb as <-. right. exists m. split; [now left|exact Hr].
           ++ now left.
        -- right. exists m'. split; [now right|exact Hm'].
    + destruct (IH _ H) as [Hb|[m' [Hin Hm']]]; [now left|].
      right. exists m'. split; [now right|exact Hm'].
Qed.

(** What a possible move is: an unvisited cell of the last position's
    column (or row), with the matrix's token. *)
Lemma possibleMoves_spec (lastPos : Position) (v : list string)
      (d : Direction) (moves : list Position) (move : Position) :
  possibleMoves codeMatrix lastPos v d = Ok moves -> In move moves ->
  match d with
  | DirCol => col move = col lastPos /\ row move < N
  | DirRow => row move = row lastPos /\ col move < N
  end /\
  visited_has (posKey (row move) (col move)) v = false /\
  cell codeMatrix (row move) (col move) = Ok (value move).
Proof.
  intros H Hin. destruct d; simpl in H;
    destruct (@collect_In _ _ _ _ _ H Hin) as [i [Hi Hb]];
    apply in_seq in Hi;
    match type of Hb with
    | (if negb ?c then _ else _) = _ => destruct c eqn:Hv; simpl in Hb; [discriminate|]
    end;
    apply bind_Ok in Hb as [x [Hx Hb]]; injection Hb as <-; simpl;
    repeat split; auto; lia.
Qed.

Lemma last_snoc (p : list Position) (lastPos : Position) :
  nth_error p (length p - 1) = Some lastPos -> exists p', p = p' ++ [lastPos].
Proof.
  intros H. destruct (@exists_last _ p) as [p' [x Hp]].
  - intros ->. discriminate.
  - exists p'. subst p. rewrite length_app in H. simpl in H.
    rewrite nth_error_app2 in H by lia.
    replace (length p' + 1 - 1 - length p') with 0 in H by lia.
    simpl in H. now injection H as ->.
Qed.

Lemma set_add_In (i j : nat) (s : list nat) :
  In j (set_add i s) -> j = i \/ In j s.
Proof.
  unfold set_add. destruct (set_has i s); [now right|].
  rewrite in_app_iff. simpl. intuition.
Qed.

(** An index of the new completed set was in the caller's set or its
    sequence is a subsequence of the current path's tokens. *)
Lemma checkCompleted_In (pv : list jsval) (cs : list nat) (i : nat) :
  In i (newCompleted pv cs) ->
  In i cs \/
  (i < length requiredSequences /\ isSubsequence pv (nth i requiredSequences []) = true).
Proof.
  unfold checkCompleted.
  assert (G : forall idx acc,
             (forall j, In j idx -> j < length requiredSequences) ->
             In i (fold_left
                     (fun newC j =>
                        if negb (set_has j cs) then
                          if isSubsequence pv (nth j requiredSequences [])
                          then set_add j newC else newC
                        else newC) idx acc) ->
             In i acc \/
             (i < length requiredSequences /\
              isSubsequence pv (nth i requiredSequences []) = true)).
  { induction idx as [|j idx IH]; intros acc Hidx H; simpl in H; [now left|].
    apply IH in H; [|intros; apply Hidx; now right].
    destruct H as [H|H]; [|now right].
    destruct (negb (set_has j cs)); [|now left].
    destruct (isSubsequence pv (nth j requiredSequences [])) eqn:E; [|now left].
    apply set_add_In in H as [->|H]; [|now left].
    right. split; [|exact E]. apply Hidx. now left. }
  apply G. intros j Hj. apply in_seq in Hj. lia.
Qed.

(** Every candidate of [solve] is what [explorePath] returned for a start
    column of the top row. *)
Lemma candidates_In (fuel : nat) (sols : list Solution) (sol : Solution) :
  candidates codeMatrix requiredSequences bufferSize fuel = Ok sols -> In sol sols ->
  exists c v, c < N /\ cell codeMatrix 0 c = Ok v /\
              explore fuel [mkPosition 0 c v] [posKey 0 c] DirCol [] = Ok (Some sol).
Proof.
  intros H Hin. destruct (@collect_In _ _ _ _ _ H Hin) as [c [Hc Hb]].
  apply in_seq in Hc. apply bind_Ok in Hb as [v [Hv Hb]].
  exists c, v. repeat split; auto; lia.
Qed.

(** [solve] returns the empty solution when there is no candidate, and one
    of the candidates otherwise. *)
Lemma solve_cases (fuel : nat) (sol : Solution) :
  solve codeMatrix requiredSequences bufferSize fuel = Ok sol ->
  (candidates codeMatrix requiredSequences bufferSize fuel = Ok [] /\ sol = emptySolution) \/
  (exists sols, candidates codeMatrix requiredSequences bufferSize fuel = Ok sols /\
                In sol sols).
Proof.
  unfold solve. intros H. apply bind_Ok in H as [sols [Hs H]].
  destruct sols as [|s0 sols].
  - left. split; [exact Hs|]. now injection H.
  - right. exists (s0 :: sols). split; [exact Hs|].
    match type of H with
    | match ?l with _ => _ end = _ => destruct l as [|s t] eqn:E; [discriminate|]
    end.
    injection H as <-.
    eapply js_sort_In. rewrite E. now left.
Qed.

(** *** An invariant principle for [explorePath]

  [Pre] holds of the arguments of every call, [Post] of every solution
  returned. *)
Section Invariant.
Variable Pre : list Position -> list string -> Direction -> list nat -> Prop.
Variable Post : Solution -> Prop.

Hypothesis at_buffer : forall p v d cs,
    Pre p v d cs -> (bufferSize <= Z.of_nat (length p))%Z ->
    Post (mkSolution p cs).
Hypothesis all_completed : forall p v d cs,
    Pre p v d cs -> (Z.of_nat (length p) < bufferSize)%Z ->
    length (newCompleted (map value p) cs) = length requiredSequences ->
    Post (mkSolution p (newCompleted (map value p) cs)).
Hypothesis descend : forall p' lastPos v d cs moves move,
    Pre (p' ++ [lastPos]) v d cs ->
    (Z.of_nat (length (p' ++ [lastPos])) < bufferSize)%Z ->
    possibleMoves codeMatrix lastPos v d = Ok moves -> In move moves ->
    Pre ((p' ++ [lastPos]) ++ [move]) (visited_add (posKey (row move) (col move)) v)
        (nextDir d) (newCompleted (map value (p' ++ [lastPos])) cs).

Lemma explorePath_invariant (fuel : nat) :
  forall p v d cs sol,
    Pre p v d cs -> explore fuel p v d cs = Ok (Some sol) -> Post sol.
Proof.
  induction fuel as [|fuel IH]; intros p v d cs sol HP H; [discriminate|].
  rewrite explorePath_S in H.
  destruct (Z.leb_spec bufferSize (Z.of_nat (length p))) as [Hb|Hb].
  { injection H as <-. eapply at_buffer; eauto. }
  destruct (Nat.eqb_spec (length (newCompleted (map value p) cs))
                         (length requiredSequences)) as [Hc|Hc].
  { injection H as <-. eapply all_completed; eauto. }
  destruct (nth_error p (length p - 1)) as [lastPos|] eqn:Hl; [|discriminate].
  apply last_snoc in Hl as [p' ->].
  apply bind_Ok in H as [moves [Hm H]].
  apply tryMoves_Some in H as [H|[move [Hin H]]]; [discriminate|].
  apply js_sort_In in Hin.
  eapply IH; [|exact H].
  eapply descend; eauto.
Qed.

Hypothesis initial : forall c v,
    c < N -> cell codeMatrix 0 c = Ok v -> Pre [mkPosition 0 c v] [posKey 0 c] DirCol [].
Hypothesis no_candidate : Post emptySolution.

Lemma solve_invariant (fuel : nat) (sol : Solution) :
  solve codeMatrix requiredSequences bufferSize fuel = Ok sol -> Post sol.
Proof.
  intros H. apply solve_cases in H as [[_ ->]|[sols [Hs Hin]]]; [exact no_candidate|].
  destruct (candidates_In _ _ _ Hs Hin) as [c [v [Hc [Hv He]]]].
  eapply explorePath_invariant; [|exact He]. now apply initial.
Qed.
End Invariant.

(** *** Termination and absence of exceptions *)

Lemma cell_Ok (r c : nat) : r < N -> exists v, cell codeMatrix r c = Ok v.
Proof.
  intros Hr. unfold cell.
  destruct (nth_error codeMatrix r) as [line|] eqn:E; [eauto|].
  apply nth_error_None in E. unfold size in Hr. lia.
Qed.

Lemma possibleMoves_Ok (lastPos : Position) (v : list string) (d : Direction) :
  row lastPos < N -> exists moves, possibleMoves codeMatrix lastPos v d = Ok moves.
Proof.
  intros Hr. destruct d; simpl; apply collect_Ok; intros i Hi; apply in_seq in Hi.
  - destruct (negb (visited_has (posKey (row lastPos) i) v)); [|eauto].
    destruct (cell_Ok (row lastPos) i Hr) as [x ->]. simpl. eauto.
  - destruct (negb (visited_has (posKey i (col lastPos)) v)); [|eauto].
    destruct (cell_Ok i (col lastPos)) as [x ->]; [lia|]. simpl. eauto.
Qed.

Lemma nth_error_snoc_last (p' : list Position) (lastPos : Position) :
  nth_error (p' ++ [lastPos]) (length (p' ++ [lastPos]) - 1) = Some lastPos.
Proof.
  rewrite length_app. simpl. rewrite nth_error_app2 by lia.
  replace (length p' + 1 - 1 - length p') with 0 by lia. reflexivity.
Qed.

Lemma tryMoves_Ok (f : Position -> result (option Solution))
        (moves : list Position) (best : option Solution) :
  (forall move, In move moves -> exists r, f move = Ok r) ->
  exists r, tryMoves requiredSequences f moves best = Ok r.
Proof.
  revert best. induction moves as [|m rest IH]; intros best H; simpl; [eauto|].
  destruct (H m (or_introl eq_refl)) as [r ->]. simpl.
  assert (Hrest : forall move, In move rest -> exists r, f move = Ok r)
    by (intros; apply H; now right).
  destruct r as [sol|]; [|now apply IH].
  destruct (length (completedSequences sol) =? length requiredSequences); [eauto|].
  now apply IH.
Qed.

Lemma tryMoves_mono (f g : Position -> result (option Solution))
        (moves : list Position) (best r : option Solution) :
  (forall move x, In move moves -> f move = Ok x -> g move = Ok x) ->
  tryMoves requiredSequences f moves best = Ok r ->
  tryMoves requiredSequences g moves best = Ok r.
Proof.
  revert best. induction moves as [|m rest IH]; intros best H Hf; simpl in *; [exact Hf|].
  apply bind_Ok in Hf as [x [Hx Hf]].
  rewrite (H m x (or_introl eq_refl) Hx). simpl.
  assert (Hrest : forall move x, In move rest -> f move = Ok x -> g move = Ok x)
    by (intros; apply H; auto).
  destruct x as [sol|]; [|now apply IH].
  destruct (length (completedSequences sol) =? length requiredSequences); [exact Hf|].
  now apply IH.
Qed.

(** More fuel does not change a result. *)
Lemma explorePath_fuel_S (fuel : nat) :
  forall p v d cs r, explore fuel p v d cs = Ok r -> explore (S fuel) p v d cs = Ok r.
Proof.
  induction fuel as [|fuel IH]; intros p v d cs r H; [discriminate|].
  rewrite explorePath_S in H. rewrite explorePath_S.
  destruct (bufferSize <=? Z.of_nat (length p))%Z; [exact H|].
  destruct (length (newCompleted (map value p) cs) =? length requiredSequences);
    [exact H|].
  destruct (nth_error p (length p - 1)) as [lastPos|]; [|exact H].
  destruct (possibleMoves codeMatrix lastPos v d) as [moves| |]; simpl in *;
    try discriminate.
  eapply tryMoves_mono; [|exact H].
  intros move x _ Hx. now apply IH.
Qed.

Lemma explorePath_fuel_le (fuel fuel' : nat) :
  fuel <= fuel' ->
  forall p v d cs r, explore fuel p v d cs = Ok r -> explore fuel' p v d cs = Ok r.
Proof.
  induction 1 as [|m Hle IH]; intros p v d cs r H; [exact H|].
  apply explorePath_fuel_S. now apply IH.
Qed.

(** Each call adds one position and the search stops at [bufferSize]
    positions, so fuel above [bufferSize - length p] is never exhausted; a
    last position inside the matrix keeps every lookup defined. *)
Lemma explorePath_total (fuel : nat) :
  forall p' lastPos v d cs,
    row lastPos < N ->
    1 <= fuel ->
    (bufferSize - Z.of_nat (length (p' ++ [lastPos])) < Z.of_nat fuel)%Z ->
    exists r, explore fuel (p' ++ [lastPos]) v d cs = Ok r.
Proof.
  induction fuel as [|fuel IH]; intros p' lastPos v d cs Hr Hf Hm; [lia|].
  rewrite explorePath_S.
  destruct (Z.leb_spec bufferSize (Z.of_nat (length (p' ++ [lastPos])))) as [Hb|Hb];
    [eauto|].
  destruct (length (newCompleted (map value (p' ++ [lastPos])) cs)
            =? length requiredSequences); [eauto|].
  rewrite nth_error_snoc_last.
  destruct (possibleMoves_Ok lastPos v d Hr) as [moves Hmoves].
  rewrite Hmoves. simpl.
  apply tryMoves_Ok. intros move Hin.
  apply js_sort_In in Hin.
  destruct (possibleMoves_spec _ _ _ _ _ Hmoves Hin) as [Hdir _].
  apply IH.
  - destruct d; lia.
  - lia.
  - rewrite length_app. simpl length. lia.
Qed.

Lemma collect_mono {A : Type} (f g : nat -> result (option A)) (idx : list nat)
        (l : list A) :
  (forall i o, In i idx -> f i = Ok o -> g i = Ok o) ->
  collect f idx = Ok l -> collect g idx = Ok l.
Proof.
  revert l. induction idx as [|i rest IH]; intros l H Hf; simpl in *; [exact Hf|].
  apply bind_Ok in Hf as [o [Ho Hf]].
  apply bind_Ok in Hf as [l' [Hl' Hf]].
  rewrite (H i o (or_introl eq_refl) Ho). simpl.
  rewrite (IH l'); [exact Hf| |exact Hl'].
  intros j x Hj. apply H. now right.
Qed.

Lemma solve_fuel_le (fuel fuel' : nat) (sol : Solution) :
  fuel <= fuel' ->
  solve codeMatrix requiredSequences bufferSize fuel = Ok sol ->
  solve codeMatrix requiredSequences bufferSize fuel' = Ok sol.
Proof.
  intros Hle H. unfold solve in *.
  apply bind_Ok in H as [sols [Hs H]].
  assert (Hs' : candidates codeMatrix requiredSequences bufferSize fuel' = Ok sols).
  { unfold candidates in *. eapply collect_mono; [|exact Hs].
    intros c o _ Hc. simpl in *.
    destruct (cell codeMatrix 0 c); simpl in *; try discriminate.
    now apply (explorePath_fuel_le fuel fuel'). }
  rewrite Hs'. exact H.
Qed.

Lemma candidates_Ok (fuel : nat) :
  (bufferSize <= Z.of_nat fuel)%Z -> 1 <= fuel ->
  exists sols, candidates codeMatrix requiredSequences bufferSize fuel = Ok sols.
Proof.
  intros Hf H1. unfold candidates. apply collect_Ok.
  intros c Hc. apply in_seq in Hc.
  destruct (cell_Ok 0 c) as [x ->]; [lia|]. simpl.
  apply (explorePath_total fuel [] (mkPosition 0 c x)); simpl; lia.
Qed.

Lemma solve_total (fuel : nat) :
  (bufferSize <= Z.of_nat fuel)%Z -> 1 <= fuel ->
  exists sol, solve codeMatrix requiredSequences bufferSize fuel = Ok sol.
Proof.
  intros Hf H1. destruct (candidates_Ok fuel Hf H1) as [sols Hs].
  unfold solve. rewrite Hs. simpl.
  destruct sols as [|s0 sols]; [eauto|].
  match goal with
  | |- exists _, match ?l with _ => _ end = _ => destruct l as [|s t] eqn:E
  end; [|eauto].
  exfalso. eapply js_sort_nonempty; [|exact E]. discriminate.
Qed.

(** *** Dead ends *)

Lemma numberToString_inj (a b : nat) : numberToString a = numberToString b -> a = b.
Proof.
  unfold numberToString. intros H.
  apply DecimalNat.Unsigned.to_uint_inj.
  apply (f_equal NilEmpty.uint_of_string) in H.
  rewrite !NilEmpty.usu in H. now injection H.
Qed.

Lemma numberToString_commaFree (n : nat) : commaFree (numberToString n).
Proof.
  unfold numberToString. generalize (Nat.to_uint n). intros d.
  induction d; simpl; auto; split; auto; discriminate.
Qed.

Lemma commaFree_split (s1 s2 t1 t2 : string) :
  commaFree s1 -> commaFree s2 ->
  (s1 ++ String "," t1)%string = (s2 ++ String "," t2)%string ->
  s1 = s2 /\ t1 = t2.
Proof.
  revert s2. induction s1 as [|c s1 IH]; intros [|c2 s2] H1 H2 E; simpl in *.
  - injection E as ->. auto.
  - injection E as <- _. now destruct H2.
  - injection E as -> _. now destruct H1.
  - injection E as -> E. destruct H1 as [_ H1], H2 as [_ H2].
    destruct (IH s2 H1 H2 E) as [-> ->]. auto.
Qed.

(** Different cells have different keys. *)
Lemma posKey_inj (r c r' c' : nat) : posKey r c = posKey r' c' -> r = r' /\ c = c'.
Proof.
  unfold posKey. simpl. intros E.
  apply commaFree_split in E as [Er Ec]; try apply numberToString_commaFree.
  split; now apply numberToString_inj.
Qed.

Lemma visited_has_In (k : string) (v : list string) :
  visited_has k v = true <-> In k v.
Proof.
  unfold visited_has. rewrite existsb_exists. split.
  - intros [x [Hx E]]. apply String.eqb_eq in E. now subst.
  - intros H. exists k. split; [exact H|]. apply String.eqb_refl.
Qed.

Lemma visited_add_length (k : string) (v : list string) :
  length (visited_add k v) <= S (length v).
Proof.
  unfold visited_add. destruct (visited_has k v); [lia|].
  rewrite length_app. simpl. lia.
Qed.

Lemma collect_nil {A : Type} (body : nat -> result (option A)) (idx : list nat) :
  collect body idx = Ok [] -> forall i, In i idx -> body i = Ok None.
Proof.
  induction idx as [|j rest IH]; intros H i Hi; simpl in *; [destruct Hi|].
  apply bind_Ok in H as [o [Ho H]].
  apply bind_Ok in H as [l [Hl H]].
  destruct o as [a|]; [discriminate|].
  injection H as ->.
  destruct Hi as [->|Hi]; [exact Ho|]. now apply IH.
Qed.

(** A line of [N] cells cannot be covered by fewer than [N] visited keys. *)
Lemma line_not_covered (f : nat -> string) (v : list string) (n : nat) :
  (forall i j, f i = f j -> i = j) ->
  (forall i, i < n -> In (f i) v) ->
  n <= length v.
Proof.
  intros Hinj Hcov.
  replace n with (length (map f (seq 0 n))) by (now rewrite length_map, length_seq).
  apply NoDup_incl_length.
  - apply Finite.Injective_map_NoDup; [exact Hinj|apply seq_NoDup].
  - intros k Hk. apply in_map_iff in Hk as [i [<- Hi]].
    apply in_seq in Hi. apply Hcov. lia.
Qed.

(** While fewer than [N] cells are visited, some move is possible. *)
Lemma possibleMoves_nonempty (lastPos : Position) (v : list string)
        (d : Direction) (moves : list Position) :
  possibleMoves codeMatrix lastPos v d = Ok moves -> length v < N -> moves <> [].
Proof.
  intros H Hv ->. destruct d; simpl in H.
  - assert (N <= length v); [|lia].
    apply (line_not_covered (fun c => posKey (row lastPos) c));
      [intros i j E; now apply posKey_inj in E|].
    intros i Hi. apply visited_has_In.
    assert (Hi' : In i (seq 0 N)) by (apply in_seq; lia).
    pose proof (collect_nil _ _ H i Hi') as Hb. simpl in Hb.
    destruct (visited_has (posKey (row lastPos) i) v); [reflexivity|]. simpl in Hb.
    destruct (cell codeMatrix (row lastPos) i); simpl in Hb; discriminate Hb.
  - assert (N <= length v); [|lia].
    apply (line_not_covered (fun r => posKey r (col lastPos)));
      [intros i j E; now apply posKey_inj in E|].
    intros i Hi. apply visited_has_In.
    assert (Hi' : In i (seq 0 N)) by (apply in_seq; lia).
    pose proof (collect_nil _ _ H i Hi') as Hb. simpl in Hb.
    destruct (visited_has (posKey i (col lastPos)) v); [reflexivity|]. simpl in Hb.
    destruct (cell codeMatrix i (col lastPos)); simpl in Hb; discriminate Hb.
Qed.

Lemma better_false (sol : Solution) (best : option Solution) :
  better sol best = false -> best <> None.
Proof. destruct best; [discriminate|]. simpl. discriminate. Qed.

Lemma tryMoves_not_null (f : Position -> result (option Solution))
        (moves : list Position) (best : option Solution) :
  (forall move, In move moves -> exists sol, f move = Ok (Some sol)) ->
  moves <> [] \/ best <> None ->
  exists sol, tryMoves requiredSequences f moves best = Ok (Some sol).
Proof.
  revert best. induction moves as [|m rest IH]; intros best H Hne; simpl.
  - destruct Hne as [Hne|Hne]; [congruence|]. destruct best; [eauto|congruence].
  - destruct (H m (or_introl eq_refl)) as [sol ->]. simpl.
    destruct (length (completedSequences sol) =? length requiredSequences); [eauto|].
    apply IH; [intros; apply H; now right|].
    right. destruct (better sol best) eqn:E; [discriminate|].
    now apply better_false in E.
Qed.

(** With [bufferSize <= N] no call of the search dead-ends. *)
Lemma explorePath_not_null (fuel : nat) :
  (bufferSize <= Z.of_nat N)%Z ->
  forall p' lastPos v d cs,
    row lastPos < N ->
    length v <= length (p' ++ [lastPos]) ->
    1 <= fuel ->
    (bufferSize - Z.of_nat (length (p' ++ [lastPos])) < Z.of_nat fuel)%Z ->
    exists sol, explore fuel (p' ++ [lastPos]) v d cs = Ok (Some sol).
Proof.
  intros HN.
  induction fuel as [|fuel IH]; intros p' lastPos v d cs Hr Hv Hf Hm; [lia|].
  rewrite explorePath_S.
  destruct (Z.leb_spec bufferSize (Z.of_nat (length (p' ++ [lastPos])))) as [Hb|Hb];
    [eauto|].
  destruct (length (newCompleted (map value (p' ++ [lastPos])) cs)
            =? length requiredSequences); [eauto|].
  rewrite nth_error_snoc_last.
  destruct (possibleMoves_Ok lastPos v d Hr) as [moves Hmoves].
  rewrite Hmoves. simpl.
  apply tryMoves_not_null.
  - intros move Hin. apply js_sort_In in Hin.
    destruct (possibleMoves_spec _ _ _ _ _ Hmoves Hin) as [Hdir _].
    apply IH.
    + destruct d; lia.
    + pose proof (visited_add_length (posKey (row move) (col move)) v).
      rewrite length_app. simpl length. lia.
    + lia.
    + rewrite length_app. simpl length. lia.
  - left. apply js_sort_nonempty.
    apply (possibleMoves_nonempty _ _ _ _ Hmoves). lia.
Qed.

Lemma explorePath_path_nonempty (fuel : nat) (p : list Position)
        (v : list string) (d : Direction) (cs : list nat) (sol : Solution) :
  p <> [] -> explore fuel p v d cs = Ok (Some sol) -> path sol <> [].
Proof.
  intros Hp H.
  apply (explorePath_invariant (fun q _ _ _ => q <> []) (fun s => path s <> []))
    with (fuel := fuel) (p := p) (v := v) (d := d) (cs := cs); auto.
  intros p' lastPos v' d' cs' moves move _ _ _ _ E.
  now apply app_eq_nil in E as [_ E].
Qed.

(** *** Properties of every returned solution *)

(** C8: with [bufferSize >= 1] the path of the solution that [solve]
    returns has at most [bufferSize] positions. *)
Theorem path_within_buffer (fuel : nat) (sol : Solution) :
  (1 <= bufferSize)%Z ->
  solve codeMatrix requiredSequences bufferSize fuel = Ok sol ->
  (Z.of_nat (length (path sol)) <= bufferSize)%Z.
Proof.
  intros Hb H.
  apply (solve_invariant
           (fun p _ _ _ => (Z.of_nat (length p) <= bufferSize)%Z)
           (fun s => (Z.of_nat (length (path s)) <= bufferSize)%Z)) with (fuel := fuel);
    [| | | | |exact H].
  - now intros p v d cs HP _.
  - now intros p v d cs HP _ _.
  - intros p' lastPos v d cs moves move _ Hlt _ _.
    rewrite length_app. simpl length. lia.
  - intros c v _ _. simpl. lia.
  - simpl. lia.
Qed.

(** C6: every index listed in [completedSequences] of the solution that
    [solve] returns names a required sequence that is a (non-contiguous)
    subsequence of the token values of the returned path. *)
Theorem completed_are_subsequences (fuel : nat) (sol : Solution) :
  solve codeMatrix requiredSequences bufferSize fuel = Ok sol ->
  forall i, In i (completedSequences sol) ->
            exists sequence,
              nth_error requiredSequences i = Some sequence /\
              isSubsequence (map value (path sol)) sequence = true /\
              exists idx, embedding (map value (path sol)) sequence idx.
Proof.
  intros H.
  assert (G : forall i, In i (completedSequences sol) ->
                        i < length requiredSequences /\
                        isSubsequence (map value (path sol))
                                      (nth i requiredSequences []) = true).
  { apply (solve_invariant
             (fun p _ _ cs =>
                forall i, In i cs ->
                          i < length requiredSequences /\
                          isSubsequence (map value p) (nth i requiredSequences []) = true)
             (fun s =>
                forall i, In i (completedSequences s) ->
                          i < length requiredSequences /\
                          isSubsequence (map value (path s))
                                        (nth i requiredSequences []) = true))
      with (fuel := fuel); [| | | | |exact H].
    - now intros p v d cs HP _.
    - intros p v d cs HP _ _ i Hi. simpl in *.
      apply checkCompleted_In in Hi as [Hi|Hi]; auto.
    - intros p' lastPos v d cs moves move HP _ _ _ i Hi.
      rewrite map_app. 
      apply checkCompleted_In in Hi as [Hi|[Hi Hs]].
      + destruct (HP i Hi) as [Hlt Hs]. split; [exact Hlt|].
        now apply isSubsequence_app.
      + split; [exact Hi|]. now apply isSubsequence_app.
    - intros _ _ _ _ i []. 
    - intros i []. }
  intros i Hi. destruct (G i Hi) as [Hlt Hs].
  destruct (nth_error requiredSequences i) as [sequence|] eqn:E.
  2:{ apply nth_error_None in E. lia. }
  rewrite (nth_error_nth _ _ [] E) in Hs.
  exists sequence. repeat split; auto.
  apply scan_embedding. now apply isSubsequence_scan.
Qed.

(** C7: the path of the solution that [solve] returns starts in row 0, and
    each later position [i] keeps the column of position [i-1] when [i] is odd
    and its row when [i] is even. *)
Theorem returned_path_alternates (fuel : nat) (sol : Solution) :
  solve codeMatrix requiredSequences bufferSize fuel = Ok sol ->
  path sol <> [] ->
  (forall p0, nth_error (path sol) 0 = Some p0 -> row p0 = 0) /\
  (forall i a b, 1 <= i ->
                 nth_error (path sol) (i - 1) = Some a ->
                 nth_error (path sol) i = Some b ->
                 if Nat.odd i then col b = col a else row b = row a).
Proof.
  intros H _. change (movementLegal (path sol)).
  apply (solve_invariant
           (fun p _ d _ =>
              movementLegal p /\
              d = if Nat.odd (length p) then DirCol else DirRow)
           (fun s => movementLegal (path s))) with (fuel := fuel); [| | | | |exact H].
  - now intros p v d cs [HP _] _.
  - now intros p v d cs [HP _] _ _.
  - intros p' lastPos v d cs moves move [[H0 Hstep] Hd] _ Hm Hin.
    destruct (possibleMoves_spec _ _ _ _ _ Hm Hin) as [Hdir _].
    set (q := p' ++ [lastPos]) in *.
    assert (Hq : length q = S (length p')).
    { unfold q. rewrite length_app. simpl. lia. }
    split; [split|].
    + intros p0 Hp0. apply H0.
      rewrite nth_error_app1 in Hp0 by lia. exact Hp0.
    + intros i a b Hi Ha Hb.
      destruct (Nat.lt_ge_cases i (length q)) as [Hlt|Hge].
      * rewrite nth_error_app1 in Ha by lia.
        rewrite nth_error_app1 in Hb by lia.
        now apply (Hstep i a b).
      * assert (i = length q) as ->.
        { apply Nat.le_antisymm; [|exact Hge].
          assert (nth_error (q ++ [move]) i <> None) as Hn by (rewrite Hb; discriminate).
          apply nth_error_Some in Hn. rewrite length_app in Hn. simpl in Hn. lia. }
        rewrite nth_error_app2 in Hb by lia.
        rewrite Nat.sub_diag in Hb. simpl in Hb. injection Hb as <-.
        rewrite nth_error_app1 in Ha by lia.
        rewrite Hq in Ha. unfold q in Ha.
        rewrite nth_error_app2 in Ha by lia.
        replace (S (length p') - 1 - length p') with 0 in Ha by lia.
        simpl in Ha. injection Ha as <-.
        rewrite Hd in Hdir.
        destruct (Nat.odd (length q)); tauto.
    + rewrite length_app. simpl. rewrite Nat.add_1_r, Nat.odd_succ.
      rewrite <- Nat.negb_odd. rewrite Hd.
      now destruct (Nat.odd (length q)).
  - intros c v _ _. split; [|reflexivity]. split.
    + intros p0 Hp0. simpl in Hp0. now injection Hp0 as <-.
    + intros [|[|i]] a b Hi Ha Hb; simpl in *; try lia; discriminate.
  - split.
    + intros p0 Hp0. discriminate.
    + intros i a b _ Ha _. now destruct (i - 1).
Qed.

(** C4: entered with a path that has reached [bufferSize], [explorePath]
    returns at once the path with exactly the completed set its caller
    passed; hence, when [solve] returns a path of [bufferSize] positions, a
    required sequence that is not yet a subsequence of the tokens before
    the last position is not listed in [completedSequences]. *)
Theorem buffer_reached_skips_check :
  (forall fuel p v d cs,
      (bufferSize <= Z.of_nat (length p))%Z ->
      explore (S fuel) p v d cs = Ok (Some (mkSolution p cs))) /\
  (forall fuel sol,
      solve codeMatrix requiredSequences bufferSize fuel = Ok sol ->
      Z.of_nat (length (path sol)) = bufferSize ->
      forall i sequence,
        nth_error requiredSequences i = Some sequence ->
        isSubsequence (map value (removelast (path sol))) sequence = false ->
        ~ In i (completedSequences sol)).
Proof.
  split.
  - intros fuel p v d cs Hb. rewrite explorePath_S.
    apply Z.leb_le in Hb. now rewrite Hb.
  - intros fuel sol H.
    assert (G : Z.of_nat (length (path sol)) = bufferSize ->
                forall i, In i (completedSequences sol) ->
                          isSubsequence (map value (removelast (path sol)))
                                        (nth i requiredSequences []) = true).
    { apply (solve_invariant
               (fun p _ _ cs =>
                  forall i, In i cs ->
                            isSubsequence (map value (removelast p))
                                          (nth i requiredSequences []) = true)
               (fun s =>
                  Z.of_nat (length (path s)) = bufferSize ->
                  forall i, In i (completedSequences s) ->
                            isSubsequence (map value (removelast (path s)))
                                          (nth i requiredSequences []) = true))
        with (fuel := fuel); [| | | | |exact H].
      - now intros p v d cs HP _ _.
      - intros p v d cs _ Hlt _ Heq. simpl in Heq. lia.
      - intros p' lastPos v d cs moves move HP _ _ _ i Hi.
        rewrite removelast_last.
        apply checkCompleted_In in Hi as [Hi|[_ Hs]]; [|exact Hs].
        specialize (HP i Hi). rewrite removelast_last in HP.
        rewrite map_app. now apply isSubsequence_app.
      - intros _ _ _ _ i [].
      - intros _ i []. }
    intros Hlen i sequence Hi Hs Hin.
    specialize (G Hlen i Hin).
    rewrite (nth_error_nth _ _ [] Hi) in G. congruence.
Qed.

(** *** Termination, dead ends and the choice among the start columns *)

(** C10: on a square matrix with [bufferSize >= 1], [solveBreachProtocol]
    terminates with a solution and raises no exception: every recursive
    call of [explorePath] has one more position and none is made at
    [bufferSize] positions, so [bufferSize] units of fuel are never
    exhausted, and more fuel gives the same solution. *)
Theorem solveBreachProtocol_terminates :
  squareGrid codeMatrix -> (1 <= bufferSize)%Z ->
  exists sol, forall fuel,
      (bufferSize <= Z.of_nat fuel)%Z ->
      solveBreachProtocol fuel codeMatrix requiredSequences bufferSize = Ok sol.
Proof.
  intros _ Hb.
  destruct (solve_total (Z.to_nat bufferSize)) as [sol Hsol]; try lia.
  exists sol. intros fuel Hf. unfold solveBreachProtocol.
  apply (solve_fuel_le (Z.to_nat bufferSize) fuel); [lia|exact Hsol].
Qed.

(** C3, amended: among the candidates of the top-row start columns, [solve]
    returns one with the greatest number of completed sequences, and among
    those of that number the one of the lowest start column: every earlier
    candidate completes strictly fewer.  Path length plays no part. *)
Theorem solve_returns_first_most_completed (fuel : nat)
          (sols : list Solution) (sol : Solution) :
  candidates codeMatrix requiredSequences bufferSize fuel = Ok sols ->
  solve codeMatrix requiredSequences bufferSize fuel = Ok sol ->
  (sols = [] /\ sol = emptySolution) \/
  (exists k,
      nth_error sols k = Some sol /\
      (forall s, In s sols ->
                 length (completedSequences s) <= length (completedSequences sol)) /\
      (forall j s, j < k -> nth_error sols j = Some s ->
                   length (completedSequences s) < length (completedSequences sol))).
Proof.
  intros Hs H. unfold solve in H. rewrite Hs in H. simpl in H.
  destruct sols as [|s0 sols']; [left; split; [reflexivity|now injection H]|].
  right.
  rewrite (js_sort_ext _
             (byKey (fun s => (- Z.of_nat (length (completedSequences s)))%Z)))
    in H by (intros; unfold byKey; lia).
  match type of H with
  | match ?l with _ => _ end = _ => destruct l as [|s t] eqn:E; [discriminate|]
  end.
  injection H as ->.
  destruct (js_sort_head _ _ _ _ _ E) as [k [Hk [Hmax Hfirst]]].
  exists k. split; [exact Hk|]. split.
  - intros s Hin. specialize (Hmax s Hin). simpl in Hmax. lia.
  - intros j s Hj Hn. specialize (Hfirst j s Hj Hn). simpl in Hfirst. lia.
Qed.

End Search.

(** ** The solver on concrete inputs *)

(** The "Example solution" comment of [main] is what the embedding computes. *)
Example main_example :
  solveBreachProtocol 8 mainMatrix mainSequences 8
  = Ok (mkSolution [mkPosition 0 0 (J "7A"); mkPosition 3 0 (J "E9");
                    mkPosition 3 2 (J "55"); mkPosition 6 2 (J "1C")]
                   [1; 0]).
Proof. vm_compute. reflexivity. Qed.

(** A dead end returns null even when the path has completed a sequence:
    here every start column dead-ends at four positions and the sequence
    ["AA"], completed from the first or second position on, is lost. *)
Example dead_end_discards_completed :
  solveBreachProtocol 5 gridA [[AA]; [ZZ]] 5 = Ok emptySolution.
Proof. vm_compute. reflexivity. Qed.

(** With no required sequence the first start column is returned at once. *)
Example no_sequences_one_position :
  solveBreachProtocol 7 gridA [] 7 = Ok (mkSolution [mkPosition 0 0 AA] []).
Proof. vm_compute. reflexivity. Qed.

(** With [bufferSize = 0] the start position itself is returned. *)
Example zero_buffer_one_position :
  solveBreachProtocol 1 gridA [[AA; BB]] 0 = Ok (mkSolution [mkPosition 0 0 AA] []).
Proof. vm_compute. reflexivity. Qed.

(** C5, amended: on [[["AA","BB"],["BB","AA"]]] with the sequence
    [["AA","AA"]] and [bufferSize = 2], [solveBreachProtocol] returns the
    path (0,0) "AA", (1,0) "BB" and completes nothing: the two "AA" cells
    share neither a row nor a column. *)
Theorem scenarioA_result (fuel : nat) :
  solveBreachProtocol (2 + fuel) gridA [[AA; AA]] 2 = Ok (mkSolution pathAB []).
Proof.
  apply (solve_fuel_le gridA [[AA; AA]] 2 2 (2 + fuel)); [lia|].
  vm_compute. reflexivity.
Qed.

Lemma scenarioA_not_as_expected :
  ~ (exists sol,
        solveBreachProtocol 2 gridA [[AA; AA]] 2 = Ok sol /\
        length (path sol) = 2 /\
        In (mkPosition 0 0 AA) (path sol) /\ In (mkPosition 1 1 AA) (path sol) /\
        completedSequences sol = [0]).
Proof.
  intros [sol [H [_ [_ [_ Hc]]]]].
  vm_compute in H. injection H as <-. discriminate Hc.
Qed.

(** C1 fails on the code: with [bufferSize = 2] the returned path
    "AA","BB" is reported with no completed sequence, although it is itself
    a candidate path that completes the required sequence ["AA","BB"]. *)
Theorem completion_at_last_token_missed :
  solveBreachProtocol 2 gridA [[AA; BB]] 2 = Ok (mkSolution pathAB []) /\
  candidatePath gridA 2 pathAB /\
  length (completedSequences (mkSolution pathAB []))
  < completedCount [[AA; BB]] (map value pathAB).
Proof.
  split; [vm_compute; reflexivity|]. split; [|vm_compute; lia].
  unfold candidatePath, pathAB. repeat split.
  - intros p0 [= <-]. reflexivity.
  - intros [|[|[|i]]] a b Hi Ha Hb; simpl in *; try lia; try discriminate.
    injection Ha as <-. injection Hb as <-. reflexivity.
  - repeat constructor; simpl; intuition discriminate.
  - simpl. lia.
  - repeat constructor.
Qed.

(** The claim of C2 fails: on the 2x2 matrix every path dead-ends at four
    positions, so with [bufferSize = 5] and a sequence that cannot be
    completed every start column returns null. *)
Lemma empty_solution_with_positive_buffer :
  squareGrid gridA /\ (1 <= 5)%Z /\
  solveBreachProtocol 5 gridA [[ZZ]] 5 = Ok emptySolution.
Proof.
  split; [repeat constructor|]. split; [lia|]. vm_compute. reflexivity.
Qed.

(** The claim of C3 fails: both start columns complete the one sequence, the
    second with the shorter path, and [solve] returns the first. *)
Lemma tie_not_broken_by_length :
  exists sols sol other,
    candidates gridA [[BB]] 3 3 = Ok sols /\
    solve gridA [[BB]] 3 3 = Ok sol /\
    In other sols /\
    length (completedSequences other) = length (completedSequences sol) /\
    length (path other) < length (path sol).
Proof.
  exists [mkSolution pathAB [0]; mkSolution [mkPosition 0 1 BB] [0]],
         (mkSolution pathAB [0]), (mkSolution [mkPosition 0 1 BB] [0]).
  split; [vm_compute; reflexivity|]. split; [vm_compute; reflexivity|].
  split; [right; now left|]. split; [reflexivity|]. simpl. lia.
Qed.

(** ** The general theorems at concrete inputs *)

Lemma isSubsequence_iff_embedding_witness :
  isSubsequence [AA; BB; AA] [AA; AA] = true.
Proof.
  apply (isSubsequence_iff_embedding [AA; BB; AA] [AA; AA]).
  exists [0; 2]. split; repeat constructor.
Defined.

Lemma path_within_buffer_witness :
  (1 <= 2)%Z /\
  solve gridA [[AA; BB]] 2 2 = Ok (mkSolution pathAB []) /\
  (Z.of_nat (length (path (mkSolution pathAB []))) <= 2)%Z.
Proof.
  split; [lia|]. split; [vm_compute; reflexivity|].
  apply (path_within_buffer gridA [[AA; BB]] 2 2); [lia|vm_compute; reflexivity].
Defined.

Lemma completed_are_subsequences_witness :
  solve gridA [[BB]] 3 3 = Ok (mkSolution pathAB [0]) /\
  exists sequence,
    nth_error [[BB]] 0 = Some sequence /\
    isSubsequence (map value pathAB) sequence = true /\
    exists idx, embedding (map value pathAB) sequence idx.
Proof.
  split; [vm_compute; reflexivity|].
  apply (completed_are_subsequences gridA [[BB]] 3 3 (mkSolution pathAB [0]));
    [vm_compute; reflexivity|now left].
Defined.

Lemma returned_path_alternates_witness :
  solve gridA [[BB]] 3 3 = Ok (mkSolution pathAB [0]) /\
  pathAB <> [] /\
  (forall p0, nth_error pathAB 0 = Some p0 -> row p0 = 0) /\
  (forall i a b, 1 <= i ->
                 nth_error pathAB (i - 1) = Some a ->
                 nth_error pathAB i = Some b ->
                 if Nat.odd i then col b = col a else row b = row a).
Proof.
  split; [vm_compute; reflexivity|]. split; [discriminate|].
  apply (returned_path_alternates gridA [[BB]] 3 3 (mkSolution pathAB [0]));
    [vm_compute; reflexivity|discriminate].
Defined.

Lemma buffer_reached_skips_check_witness :
  explorePath gridA [[AA; BB]] 2 1 pathAB [posKey 0 0; posKey 1 0] DirRow []
  = Ok (Some (mkSolution pathAB [])) /\
  solve gridA [[AA; BB]] 2 2 = Ok (mkSolution pathAB []) /\
  isSubsequence (map value (removelast pathAB)) [AA; BB] = false /\
  isSubsequence (map value pathAB) [AA; BB] = true /\
  ~ In 0 (completedSequences (mkSolution pathAB [])).
Proof.
  destruct (buffer_reached_skips_check gridA [[AA; BB]] 2) as [Hleaf Hlast].
  split; [apply Hleaf; simpl; lia|].
  split; [vm_compute; reflexivity|].
  split; [vm_compute; reflexivity|].
  split; [vm_compute; reflexivity|].
  apply (Hlast 2 (mkSolution pathAB []))
    with (sequence := [AA; BB]);
    [vm_compute; reflexivity|reflexivity|reflexivity|vm_compute; reflexivity].
Defined.

Lemma solveBreachProtocol_terminates_witness :
  squareGrid gridA /\ (1 <= 2)%Z /\
  exists sol, forall fuel,
      (2 <= Z.of_nat fuel)%Z ->
      solveBreachProtocol fuel gridA [[AA; BB]] 2 = Ok sol.
Proof.
  assert (Hsq : squareGrid gridA) by (repeat constructor).
  split; [exact Hsq|]. split; [lia|].
  apply (solveBreachProtocol_terminates gridA [[AA; BB]] 2 Hsq). lia.
Defined.

Lemma solve_returns_first_most_completed_witness :
  exists k,
    nth_error [mkSolution pathAB [0]; mkSolution [mkPosition 0 1 BB] [0]] k
    = Some (mkSolution pathAB [0]) /\
    forall j s, j < k ->
                nth_error [mkSolution pathAB [0]; mkSolution [mkPosition 0 1 BB] [0]] j
                = Some s ->
                length (completedSequences s) < 1.
Proof.
  destruct (solve_returns_first_most_completed
              gridA [[BB]] 3 3
              [mkSolution pathAB [0]; mkSolution [mkPosition 0 1 BB] [0]]
              (mkSolution pathAB [0]))
    as [[E _]|[k [Hk [_ Hfirst]]]];
    [vm_compute; reflexivity|vm_compute; reflexivity|discriminate E|].
  exists k. split; [exact Hk|exact Hfirst].
Defined.

(** ** Further properties of the search *)

Lemma visited_add_In (k k' : string) (v : list string) :
  In k (visited_add k' v) <-> k = k' \/ In k v.
Proof.
  unfold visited_add. destruct (visited_has k' v) eqn:E.
  - apply visited_has_In in E. split; [now right|]. intros [->|H]; assumption.
  - rewrite in_app_iff. simpl. intuition.
Qed.

Lemma NoDup_snoc {A : Type} (l : list A) (x : A) :
  NoDup l -> ~ In x l -> NoDup (l ++ [x]).
Proof.
  intros Hl Hx. apply (Permutation_NoDup (Permutation_cons_append l x)).
  now constructor.
Qed.

Lemma scan_bound (array sub : list jsval) :
  length sub <= length array + length (scan array sub).
Proof.
  revert sub. induction array as [|a rest IH]; intros sub; simpl; [lia|].
  destruct sub as [|s sub']; simpl; [lia|].
  destruct (jsval_eqb a s).
  - specialize (IH sub'). lia.
  - specialize (IH (s :: sub')). simpl in IH. lia.
Qed.

(** A subsequence is not longer than the array. *)
Lemma isSubsequence_length (array sub : list jsval) :
  isSubsequence array sub = true -> length sub <= length array.
Proof.
  intros H. apply isSubsequence_scan in H.
  pose proof (scan_bound array sub) as Hb. rewrite H in Hb. simpl in Hb. lia.
Qed.

Lemma set_has_In (i : nat) (s : list nat) : set_has i s = true <-> In i s.
Proof.
  unfold set_has. rewrite existsb_exists. split.
  - intros [x [Hx E]]. apply Nat.eqb_eq in E. now subst.
  - intros H. exists i. split; [exact H|apply Nat.eqb_refl].
Qed.

Section Returned.
Variable codeMatrix : list (list jsval).
Variable requiredSequences : list (list jsval).
Variable bufferSize : Z.

Local Abbreviation N := (size codeMatrix).
Local Abbreviation explore := (explorePath codeMatrix requiredSequences bufferSize).
Local Abbreviation newCompleted := (checkCompleted requiredSequences).

(** The test of lines 64-66 for index [i]. *)
Local Abbreviation completes pv cs :=
  (fun i => negb (set_has i cs) && isSubsequence pv (nth i requiredSequences [])).

Lemma checkCompleted_fold (pv : list jsval) (cs : list nat) (n : nat) :
  forall a l,
    (forall x, In x l -> x < a) ->
    fold_left
      (fun newC i =>
         if negb (set_has i cs) then
           if isSubsequence pv (nth i requiredSequences [])
           then set_add i newC else newC
         else newC)
      (seq a n) (cs ++ l)
    = cs ++ l ++ filter (completes pv cs) (seq a n).
Proof.
  induction n as [|n IH]; intros a l Hl; simpl.
  - now rewrite app_nil_r.
  - destruct (set_has a cs) eqn:Ha; simpl.
    + apply IH. intros x Hx. specialize (Hl x Hx). lia.
    + destruct (isSubsequence pv (nth a requiredSequences [])); simpl.
      * assert (Hn : set_has a (cs ++ l) = false).
        { destruct (set_has a (cs ++ l)) eqn:E; [|reflexivity].
          apply set_has_In in E. apply in_app_iff in E as [E|E].
          - apply set_has_In in E. congruence.
          - specialize (Hl a E). lia. }
        replace (set_add a (cs ++ l)) with (cs ++ l ++ [a])
          by (unfold set_add; rewrite Hn; now rewrite app_assoc).
        rewrite (IH (S a) (l ++ [a])).
        -- now rewrite <- app_assoc.
        -- intros x Hx. apply in_app_iff in Hx as [Hx|[<-|[]]]; [|lia].
           specialize (Hl x Hx). lia.
      * apply IH. intros x Hx. specialize (Hl x Hx). lia.
Qed.

Lemma checkCompleted_eq (pv : list jsval) (cs : list nat) :
  newCompleted pv cs
  = cs ++ filter (completes pv cs) (seq 0 (length requiredSequences)).
Proof.
  unfold checkCompleted.
  pose proof (checkCompleted_fold pv cs (length requiredSequences) 0 []) as H.
  rewrite app_nil_r in H. apply H. intros x [].
Qed.

Lemma checkCompleted_NoDup (pv : list jsval) (cs : list nat) :
  NoDup cs -> NoDup (newCompleted pv cs).
Proof.
  intros Hcs. rewrite checkCompleted_eq.
  apply NoDup_app; [exact Hcs| |].
  - apply NoDup_filter, seq_NoDup.
  - intros x Hx Hf. apply filter_In in Hf as [_ Hf].
    apply andb_true_iff in Hf as [Hf _].
    apply set_has_In in Hx. rewrite Hx in Hf. discriminate.
Qed.

Lemma NoDup_range_length (l : list nat) (n : nat) :
  NoDup l -> (forall i, In i l -> i < n) -> length l <= n.
Proof.
  intros Hl Hr.
  replace n with (length (seq 0 n)) by apply length_seq.
  apply NoDup_incl_length; [exact Hl|].
  intros i Hi. apply in_seq. specialize (Hr i Hi). lia.
Qed.

Lemma checkCompleted_range (pv : list jsval) (cs : list nat) :
  (forall i, In i cs -> i < length requiredSequences) ->
  forall i, In i (newCompleted pv cs) -> i < length requiredSequences.
Proof.
  intros Hcs i Hi. rewrite checkCompleted_eq in Hi.
  apply in_app_iff in Hi as [Hi|Hi]; [now apply Hcs|].
  apply filter_In in Hi as [Hi _]. apply in_seq in Hi. lia.
Qed.

(** X16: the completed set handed to the recursive calls is the caller's
    set, in its order, followed by the indices, in ascending order, that
    were not in it and whose sequence is a subsequence of the path's
    tokens; it has no duplicate when the caller's set has none. *)
Theorem checkCompleted_closed_form (pv : list jsval) (cs : list nat) :
  newCompleted pv cs
  = cs ++ filter (completes pv cs) (seq 0 (length requiredSequences)) /\
  (NoDup cs -> NoDup (newCompleted pv cs)).
Proof.
  split; [apply checkCompleted_eq|apply checkCompleted_NoDup].
Qed.

(** X1: no coordinate occurs twice in the path that [solve] returns. *)
Theorem returned_path_no_revisit (fuel : nat) (sol : Solution) :
  solve codeMatrix requiredSequences bufferSize fuel = Ok sol ->
  NoDup (map (fun q => (row q, col q)) (path sol)).
Proof.
  intros H.
  apply (solve_invariant codeMatrix requiredSequences bufferSize
           (fun p v _ _ =>
              NoDup (map (fun q => (row q, col q)) p) /\
              forall q, In q p -> In (posKey (row q) (col q)) v)
           (fun s => NoDup (map (fun q => (row q, col q)) (path s))))
    with (fuel := fuel); [| | | | |exact H].
  - now intros p v d cs [HP _] _.
  - now intros p v d cs [HP _] _ _.
  - intros p' lastPos v d cs moves move [Hnd Hv] _ Hm Hin.
    destruct (possibleMoves_spec _ _ _ _ _ _ Hm Hin) as [_ [Hfresh _]].
    split.
    + rewrite map_app. simpl. apply NoDup_snoc; [exact Hnd|].
      intros Hc. apply in_map_iff in Hc as [q [Hq Hin']].
      injection Hq as Hr Hc.
      specialize (Hv q Hin'). rewrite Hr, Hc in Hv.
      apply visited_has_In in Hv. congruence.
    + intros q Hq. apply visited_add_In.
      apply in_app_iff in Hq as [Hq|[<-|[]]]; [right; now apply Hv|now left].
  - intros c v _ _. split.
    + simpl. constructor; [intros []|constructor].
    + intros q [<-|[]]. now left.
  - constructor.
Qed.

(** X2: every position of the returned path is a cell of the matrix,
    [row < N] and [col < N], and carries the token of that cell. *)
Theorem returned_path_cells (fuel : nat) (sol : Solution) :
  solve codeMatrix requiredSequences bufferSize fuel = Ok sol ->
  Forall (fun q => row q < N /\ col q < N /\
                   cell codeMatrix (row q) (col q) = Ok (value q))
         (path sol).
Proof.
  intros H.
  apply (solve_invariant codeMatrix requiredSequences bufferSize
           (fun p _ _ _ =>
              Forall (fun q => row q < N /\ col q < N /\
                               cell codeMatrix (row q) (col q) = Ok (value q)) p)
           (fun s =>
              Forall (fun q => row q < N /\ col q < N /\
                               cell codeMatrix (row q) (col q) = Ok (value q))
                     (path s)))
    with (fuel := fuel); [| | | | |exact H].
  - now intros p v d cs HP _.
  - now intros p v d cs HP _ _.
  - intros p' lastPos v d cs moves move HP _ Hm Hin.
    destruct (possibleMoves_spec _ _ _ _ _ _ Hm Hin) as [Hdir [_ Hcell]].
    apply Forall_app. split; [exact HP|].
    apply Forall_app in HP as [_ HP].
    inversion HP as [|? ? [Hr [Hc _]] _]; subst.
    constructor; [|constructor].
    destruct d; repeat split; try exact Hcell; lia.
  - intros c v Hc Hv. constructor; [|constructor]. simpl.
    repeat split; try exact Hv; lia.
  - constructor.
Qed.

Lemma explorePath_completed_set (fuel : nat) (p : list Position) (v : list string)
      (d : Direction) (cs : list nat) (sol : Solution) :
  NoDup cs -> (forall i, In i cs -> i < length requiredSequences) ->
  explore fuel p v d cs = Ok (Some sol) ->
  NoDup (completedSequences sol) /\
  (forall i, In i (completedSequences sol) -> i < length requiredSequences).
Proof.
  intros Hnd Hr H.
  apply (explorePath_invariant codeMatrix requiredSequences bufferSize
           (fun _ _ _ cs =>
              NoDup cs /\ forall i, In i cs -> i < length requiredSequences)
           (fun s =>
              NoDup (completedSequences s) /\
              forall i, In i (completedSequences s) -> i < length requiredSequences))
    with (fuel := fuel) (p := p) (v := v) (d := d) (cs := cs); auto.
  - intros q w e c [H1 H2] _ _. simpl. split.
    + now apply checkCompleted_NoDup.
    + now apply checkCompleted_range.
  - intros p' lastPos w e c moves move [H1 H2] _ _ _. split.
    + now apply checkCompleted_NoDup.
    + now apply checkCompleted_range.
Qed.

(** X3: [completedSequences] of the returned solution lists no index twice,
    every index is a valid index of [requiredSequences], and so there are
    at most as many as required sequences. *)
Theorem returned_completed_set (fuel : nat) (sol : Solution) :
  solve codeMatrix requiredSequences bufferSize fuel = Ok sol ->
  NoDup (completedSequences sol) /\
  (forall i, In i (completedSequences sol) -> i < length requiredSequences) /\
  length (completedSequences sol) <= length requiredSequences.
Proof.
  intros H.
  assert (G : NoDup (completedSequences sol) /\
              forall i, In i (completedSequences sol) -> i < length requiredSequences).
  { apply solve_cases in H as [[_ ->]|[sols [Hs Hin]]].
    - split; [constructor|intros i []].
    - destruct (candidates_In _ _ _ _ _ _ Hs Hin) as [c [x [_ [_ He]]]].
      apply (explorePath_completed_set _ _ _ _ _ _ (NoDup_nil _)
               (fun i (F : In i []) => match F with end) He). }
  destruct G as [Hnd Hr]. repeat split; auto.
  now apply NoDup_range_length.
Qed.

(** X4: a required sequence with [bufferSize] tokens or more is never
    listed as completed: completion is only checked on paths shorter than
    [bufferSize]. *)
Theorem long_sequence_never_completed (fuel : nat) (sol : Solution) :
  solve codeMatrix requiredSequences bufferSize fuel = Ok sol ->
  forall i sequence,
    In i (completedSequences sol) ->
    nth_error requiredSequences i = Some sequence ->
    (Z.of_nat (length sequence) < bufferSize)%Z.
Proof.
  intros H.
  assert (G : forall i, In i (completedSequences sol) ->
                        (Z.of_nat (length (nth i requiredSequences [])) < bufferSize)%Z).
  { apply (solve_invariant codeMatrix requiredSequences bufferSize
             (fun _ _ _ cs =>
                forall i, In i cs ->
                          (Z.of_nat (length (nth i requiredSequences [])) < bufferSize)%Z)
             (fun s =>
                forall i, In i (completedSequences s) ->
                          (Z.of_nat (length (nth i requiredSequences [])) < bufferSize)%Z))
      with (fuel := fuel); [| | | | |exact H].
    - now intros p v d cs HP _.
    - intros p v d cs HP Hlt _ i Hi. simpl in Hi.
      apply checkCompleted_In in Hi as [Hi|[_ Hs]]; [now apply HP|].
      apply isSubsequence_length in Hs. rewrite length_map in Hs. lia.
    - intros p' lastPos v d cs moves move HP Hlt _ _ i Hi.
      apply checkCompleted_In in Hi as [Hi|[_ Hs]]; [now apply HP|].
      apply isSubsequence_length in Hs. rewrite length_map in Hs. lia.
    - intros _ _ _ _ i [].
    - intros i []. }
  intros i sequence Hi Hn. specialize (G i Hi).
  now rewrite (nth_error_nth _ _ [] Hn) in G.
Qed.

(** The invariant principle again, with the fact that a recursive call is
    made only when some sequence is still not completed. *)
Section InvariantPending.
Variable Pre : list Position -> list string -> Direction -> list nat -> Prop.
Variable Post : Solution -> Prop.

Hypothesis at_buffer : forall p v d cs,
    Pre p v d cs -> (bufferSize <= Z.of_nat (length p))%Z ->
    Post (mkSolution p cs).
Hypothesis all_completed : forall p v d cs,
    Pre p v d cs -> (Z.of_nat (length p) < bufferSize)%Z ->
    length (newCompleted (map value p) cs) = length requiredSequences ->
    Post (mkSolution p (newCompleted (map value p) cs)).
Hypothesis descend : forall p v d cs,
    Pre p v d cs ->
    (Z.of_nat (length p) < bufferSize)%Z ->
    length (newCompleted (map value p) cs) <> length requiredSequences ->
    forall move,
      Pre (p ++ [move]) (visited_add (posKey (row move) (col move)) v)
          (nextDir d) (newCompleted (map value p) cs).
Hypothesis initial : forall c v, Pre [mkPosition 0 c v] [posKey 0 c] DirCol [].
Hypothesis no_candidate : Post emptySolution.

Lemma explorePath_invariant_pending (fuel : nat) :
  forall p v d cs sol,
    Pre p v d cs -> explore fuel p v d cs = Ok (Some sol) -> Post sol.
Proof.
  induction fuel as [|fuel IH]; intros p v d cs sol HP H; [discriminate|].
  rewrite explorePath_S in H.
  destruct (Z.leb_spec bufferSize (Z.of_nat (length p))) as [Hb|Hb].
  { injection H as <-. eapply at_buffer; eauto. }
  destruct (Nat.eqb_spec (length (newCompleted (map value p) cs))
                         (length requiredSequences)) as [Hc|Hc].
  { injection H as <-. eapply all_completed; eauto. }
  destruct (nth_error p (length p - 1)) as [lastPos|] eqn:Hl; [|discriminate].
  apply bind_Ok in H as [moves [Hm H]].
  apply tryMoves_Some in H as [H|[move [Hin H]]]; [discriminate|].
  eapply IH; [|exact H].
  now apply descend.
Qed.

Lemma solve_invariant_pending (fuel : nat) (sol : Solution) :
  solve codeMatrix requiredSequences bufferSize fuel = Ok sol -> Post sol.
Proof.
  intros H. apply solve_cases in H as [[_ ->]|[sols [Hs Hin]]]; [exact no_candidate|].
  destruct (candidates_In _ _ _ _ _ _ Hs Hin) as [c [v [Hc [Hv He]]]].
  eapply explorePath_invariant_pending; [|exact He]. apply initial.
Qed.
End InvariantPending.

(** X5: when some sequence is required, a returned solution that completes
    all of them has fewer than [bufferSize] positions. *)
Theorem complete_solution_below_buffer (fuel : nat) (sol : Solution) :
  requiredSequences <> [] ->
  solve codeMatrix requiredSequences bufferSize fuel = Ok sol ->
  length (completedSequences sol) = length requiredSequences ->
  (Z.of_nat (length (path sol)) < bufferSize)%Z.
Proof.
  intros Hne H.
  apply (solve_invariant_pending
           (fun _ _ _ cs =>
              NoDup cs /\ (forall i, In i cs -> i < length requiredSequences) /\
              length cs < length requiredSequences)
           (fun s =>
              length (completedSequences s) = length requiredSequences ->
              (Z.of_nat (length (path s)) < bufferSize)%Z))
    with (fuel := fuel); [| | | | |exact H].
  - intros p v d cs [_ [_ Hlt]] _ Heq. simpl in Heq. lia.
  - intros p v d cs _ Hlt _ _. exact Hlt.
  - intros p v d cs [Hnd [Hr _]] _ Hneq move.
    pose proof (checkCompleted_NoDup (map value p) cs Hnd) as Hnd'.
    pose proof (checkCompleted_range (map value p) cs Hr) as Hr'.
    pose proof (NoDup_range_length _ _ Hnd' Hr').
    repeat split; auto. lia.
  - intros c v. repeat split; [constructor|intros i []|].
    destruct requiredSequences; [congruence|simpl; lia].
  - intros Heq. destruct requiredSequences; [congruence|discriminate].
Qed.

(** The order in which line 128-131 prefer solutions. *)
Local Abbreviation notBetter s' s :=
  (length (completedSequences s') < length (completedSequences s) \/
   (length (completedSequences s') = length (completedSequences s) /\
    length (path s) <= length (path s'))).

Lemma tryMoves_best (f : Position -> result (option Solution))
      (moves : list Position) (best : option Solution) (s : Solution) :
  tryMoves requiredSequences f moves best = Ok (Some s) ->
  length (completedSequences s) <> length requiredSequences ->
  (forall b, best = Some b -> notBetter b s) /\
  (forall m s', In m moves -> f m = Ok (Some s') -> notBetter s' s).
Proof.
  revert best. induction moves as [|m rest IH]; intros best H Hs; simpl in H.
  - injection H as ->. split; [|intros m s' []].
    intros b [= ->]. right. split; lia.
  - apply bind_Ok in H as [r [Hr H]].
    destruct r as [sol|].
    + destruct (Nat.eqb_spec (length (completedSequences sol))
                             (length requiredSequences)) as [Hfull|Hfull].
      { injection H as <-. contradiction. }
      destruct (IH _ H Hs) as [Hbest Hrest].
      assert (Hsol : notBetter sol s /\ forall b, best = Some b -> notBetter b s).
      { destruct best as [b|]; simpl in Hbest.
        - destruct (length (completedSequences b) <? length (completedSequences sol))
                   eqn:E1; simpl in Hbest.
          + apply Nat.ltb_lt in E1.
            specialize (Hbest sol eq_refl).
            split; [exact Hbest|]. intros b' [= <-]. lia.
          + apply Nat.ltb_ge in E1.
            destruct (Nat.eqb_spec (length (completedSequences sol))
                                   (length (completedSequences b))) as [E2|E2];
              simpl in Hbest.
            * destruct (Nat.ltb_spec (length (path sol)) (length (path b))) as [E3|E3].
              -- specialize (Hbest sol eq_refl).
                 split; [exact Hbest|]. intros b' [= <-]. lia.
              -- specialize (Hbest b eq_refl).
                 split; [lia|]. intros b' [= <-]. exact Hbest.
            * specialize (Hbest b eq_refl).
              split; [lia|]. intros b' [= <-]. exact Hbest.
        - simpl in Hbest. specialize (Hbest sol eq_refl).
          split; [exact Hbest|]. intros b' [=]. }
      destruct Hsol as [Hsol Hb]. split; [exact Hb|].
      intros m' s' [<-|Hin] Hf.
      * rewrite Hr in Hf. now injection Hf as <-.
      * now apply (Hrest m' s').
    + destruct (IH _ H Hs) as [Hbest Hrest]. split; [exact Hbest|].
      intros m' s' [<-|Hin] Hf.
      * rewrite Hr in Hf. discriminate.
      * now apply (Hrest m' s').
Qed.

(** X6: what a call of [explorePath] that tries moves returns is at least
    as good as what each of its recursive calls returns: no child completes
    more sequences, and unless all sequences are completed no child with
    the same number has a shorter path. *)
Theorem explorePath_returns_best_child (fuel : nat) (p : list Position)
        (lastPos : Position) (v : list string) (d : Direction) (cs : list nat)
        (moves : list Position) (sol : Solution) :
  NoDup cs -> (forall i, In i cs -> i < length requiredSequences) ->
  (Z.of_nat (length p) < bufferSize)%Z ->
  length (newCompleted (map value p) cs) <> length requiredSequences ->
  nth_error p (length p - 1) = Some lastPos ->
  possibleMoves codeMatrix lastPos v d = Ok moves ->
  explore (S fuel) p v d cs = Ok (Some sol) ->
  forall move child,
    In move moves ->
    explore fuel (p ++ [move]) (visited_add (posKey (row move) (col move)) v)
            (nextDir d) (newCompleted (map value p) cs) = Ok (Some child) ->
    length (completedSequences child) <= length (completedSequences sol) /\
    (length (completedSequences sol) < length requiredSequences ->
     length (completedSequences child) = length (completedSequences sol) ->
     length (path sol) <= length (path child)).
Proof.
  intros Hnd Hr Hlt Hpend Hlast Hm H move child Hin Hchild.
  rewrite explorePath_S in H.
  apply Z.leb_gt in Hlt. rewrite Hlt in H.
  apply Nat.eqb_neq in Hpend. rewrite Hpend in H.
  rewrite Hlast, Hm in H. simpl in H.
  destruct (Nat.eq_dec (length (completedSequences sol)) (length requiredSequences))
    as [Hfull|Hfull].
  - split; [|lia]. rewrite Hfull.
    pose proof (checkCompleted_NoDup (map value p) cs Hnd) as Hnd'.
    pose proof (checkCompleted_range (map value p) cs Hr) as Hr'.
    destruct (explorePath_completed_set _ _ _ _ _ _ Hnd' Hr' Hchild) as [H1 H2].
    now apply NoDup_range_length.
  - destruct (tryMoves_best _ _ _ _ H Hfull) as [_ Hbest].
    assert (Hin' : In move
                      (js_sort (fun a b =>
                                  (evaluateMove requiredSequences (map value p) (value a)
                                                (newCompleted (map value p) cs)
                                   - evaluateMove requiredSequences (map value p) (value b)
                                                  (newCompleted (map value p) cs))%Z)
                               moves))
      by (now apply js_sort_In).
    specialize (Hbest move child Hin' Hchild). lia.
Qed.

(** X17: what a call of [explorePath] returns continues what it was given:
    the returned path starts with the call's path and the returned
    completed list starts with the call's completed set, so an index once
    completed on a branch stays completed, at its place. *)
Theorem explorePath_extends (fuel : nat) (p : list Position) (v : list string)
        (d : Direction) (cs : list nat) (sol : Solution) :
  explore fuel p v d cs = Ok (Some sol) ->
  (exists positions, path sol = p ++ positions) /\
  (exists added, completedSequences sol = cs ++ added).
Proof.
  intros H.
  apply (explorePath_invariant codeMatrix requiredSequences bufferSize
           (fun q _ _ c =>
              (exists positions, q = p ++ positions) /\
              (exists added, c = cs ++ added))
           (fun s =>
              (exists positions, path s = p ++ positions) /\
              (exists added, completedSequences s = cs ++ added)))
    with (fuel := fuel) (p := p) (v := v) (d := d) (cs := cs); auto.
  - intros q w e c [Hq [a ->]] _ _. split; [exact Hq|]. simpl.
    rewrite checkCompleted_eq, <- app_assoc. eauto.
  - intros p' lastPos w e c moves move [[e' ->] [a ->]] _ _ _. split.
    + rewrite <- app_assoc. eauto.
    + rewrite checkCompleted_eq, <- app_assoc. eauto.
  - split; [exists []|exists []]; now rewrite app_nil_r.
Qed.

(** X7: an empty path is returned exactly when no top-row start column
    produced a candidate. *)
Theorem empty_path_iff_no_candidate (fuel : nat) (sol : Solution) :
  solve codeMatrix requiredSequences bufferSize fuel = Ok sol ->
  (path sol = [] <-> candidates codeMatrix requiredSequences bufferSize fuel = Ok []).
Proof.
  intros H. destruct (solve_cases _ _ _ _ _ H) as [[Hc ->]|[sols [Hs Hin]]].
  - split; auto.
  - split.
    + intros Hp. exfalso.
      destruct (candidates_In _ _ _ _ _ _ Hs Hin) as [c [x [_ [_ He]]]].
      eapply explorePath_path_nonempty; [|exact He|exact Hp]. discriminate.
    + intros Hc. rewrite Hc in Hs. injection Hs as <-. destruct Hin.
Qed.

End Returned.

(** ** Complete solutions are found *)

Lemma collect_In_conv {A : Type} (body : nat -> result (option A)) (idx : list nat)
      (l : list A) (i : nat) (a : A) :
  collect body idx = Ok l -> In i idx -> body i = Ok (Some a) -> In a l.
Proof.
  revert l. induction idx as [|j rest IH]; intros l H Hi Hb; simpl in H.
  - destruct Hi.
  - apply bind_Ok in H as [o [Ho H]].
    apply bind_Ok in H as [l' [Hl' H]].
    injection H as <-.
    destruct Hi as [->|Hi].
    + rewrite Hb in Ho. injection Ho as <-. now left.
    + specialize (IH _ Hl' Hi Hb). destruct o; [now right|exact IH].
Qed.

Lemma cell_Ok_row (codeMatrix : list (list jsval)) (r c : nat) (x : jsval) :
  cell codeMatrix r c = Ok x -> r < size codeMatrix.
Proof.
  unfold cell, size. destruct (nth_error codeMatrix r) eqn:E; [|discriminate].
  intros _. apply nth_error_Some. rewrite E. discriminate.
Qed.

Section Complete.
Variable codeMatrix : list (list jsval).
Variable requiredSequences : list (list jsval).
Variable bufferSize : Z.

Local Abbreviation N := (size codeMatrix).
Local Abbreviation explore := (explorePath codeMatrix requiredSequences bufferSize).
Local Abbreviation newCompleted := (checkCompleted requiredSequences).
Local Abbreviation total := (length requiredSequences).

(** An unvisited cell of the line is among the possible moves. *)
Lemma possibleMoves_complete (lastPos move : Position) (v : list string)
      (d : Direction) (moves : list Position) :
  possibleMoves codeMatrix lastPos v d = Ok moves ->
  match d with
  | DirCol => col move = col lastPos
  | DirRow => row move = row lastPos
  end ->
  row move < N -> col move < N ->
  visited_has (posKey (row move) (col move)) v = false ->
  cell codeMatrix (row move) (col move) = Ok (value move) ->
  In move moves.
Proof.
  intros H Hd Hr Hc Hv Hcell. destruct move as [r c x]. simpl in *.
  destruct d; simpl in H; subst.
  - apply (collect_In_conv _ _ _ c _ H); [apply in_seq; lia|].
    rewrite Hv. simpl. rewrite Hcell. reflexivity.
  - apply (collect_In_conv _ _ _ r _ H); [apply in_seq; lia|].
    rewrite Hv. simpl. rewrite Hcell. reflexivity.
Qed.

Lemma tryMoves_finds_full (f : Position -> result (option Solution))
      (moves : list Position) (best : option Solution) (m : Position) (s : Solution) :
  (forall move, In move moves -> exists r, f move = Ok r) ->
  In m moves -> f m = Ok (Some s) ->
  length (completedSequences s) = total ->
  exists s', tryMoves requiredSequences f moves best = Ok (Some s') /\
             length (completedSequences s') = total.
Proof.
  revert best. induction moves as [|h rest IH]; intros best Hok Hin Hm Hs; [destruct Hin|].
  simpl. destruct (Hok h (or_introl eq_refl)) as [r Hr]. rewrite Hr. simpl.
  assert (Hrest : forall move, In move rest -> exists r, f move = Ok r)
    by (intros; apply Hok; now right).
  destruct r as [sol|].
  - destruct (Nat.eqb_spec (length (completedSequences sol)) total) as [E|E]; [eauto|].
    destruct Hin as [->|Hin]; [|now apply IH].
    rewrite Hm in Hr. injection Hr as <-. contradiction.
  - destruct Hin as [->|Hin]; [|now apply IH].
    rewrite Hm in Hr. discriminate.
Qed.

Lemma checkCompleted_full (pv : list jsval) (cs : list nat) :
  NoDup cs -> (forall i, In i cs -> i < total) ->
  (forall sequence, In sequence requiredSequences -> isSubsequence pv sequence = true) ->
  length (newCompleted pv cs) = total.
Proof.
  intros Hnd Hr Hall. apply Nat.le_antisymm.
  - apply NoDup_range_length.
    + now apply checkCompleted_NoDup.
    + now apply checkCompleted_range.
  - replace total with (length (seq 0 total)) at 1 by apply length_seq.
    apply NoDup_incl_length; [apply seq_NoDup|].
    intros i Hi. rewrite checkCompleted_eq. apply in_app_iff.
    destruct (set_has i cs) eqn:E; [left; now apply set_has_In|].
    right. apply filter_In. split; [exact Hi|].
    rewrite E. simpl. apply Hall. apply nth_In. apply in_seq in Hi. lia.
Qed.

Section AlongPath.
Variable q : list Position.
Hypothesis q_legal : movementLegal q.
Hypothesis q_nodup : NoDup (map (fun x => (row x, col x)) q).
Hypothesis q_short : (Z.of_nat (length q) < bufferSize)%Z.
Hypothesis q_cells :
  Forall (fun x => cell codeMatrix (row x) (col x) = Ok (value x) /\ col x < N) q.
Hypothesis q_completes :
  forall sequence, In sequence requiredSequences ->
                   isSubsequence (map value q) sequence = true.

(** A call on a prefix of [q] returns a solution that completes all. *)
Lemma explorePath_along (fuel : nat) :
  forall pre lastPos suf v d cs,
    q = (pre ++ [lastPos]) ++ suf ->
    (forall k, In k v ->
               exists x, In x (pre ++ [lastPos]) /\ k = posKey (row x) (col x)) ->
    d = (if Nat.odd (length (pre ++ [lastPos])) then DirCol else DirRow) ->
    NoDup cs -> (forall i, In i cs -> i < total) ->
    1 <= fuel ->
    (bufferSize - Z.of_nat (length (pre ++ [lastPos])) < Z.of_nat fuel)%Z ->
    exists sol, explore fuel (pre ++ [lastPos]) v d cs = Ok (Some sol) /\
                length (completedSequences sol) = total.
Proof.
  induction fuel as [|fuel IH]; intros pre lastPos suf v d cs Hq Hv Hd Hnd Hr Hf Hm; [lia|].
  set (p := pre ++ [lastPos]) in *.
  assert (Hlen : length q = length p + length suf) by (rewrite Hq; apply length_app).
  rewrite explorePath_S.
  destruct (Z.leb_spec bufferSize (Z.of_nat (length p))) as [Hb|Hb]; [lia|].
  destruct (Nat.eqb_spec (length (newCompleted (map value p) cs)) total) as [Hc|Hc];
    [eauto|].
  destruct suf as [|m suf'].
  { exfalso. apply Hc. apply checkCompleted_full; auto.
    rewrite app_nil_r in Hq. now rewrite <- Hq. }
  unfold p at 1 2. rewrite nth_error_snoc_last. fold p.
  assert (HlastIn : In lastPos q).
  { rewrite Hq. apply in_app_iff. left. apply in_app_iff. right. now left. }
  assert (HmIn : In m q).
  { rewrite Hq. apply in_app_iff. right. now left. }
  rewrite Forall_forall in q_cells.
  destruct (q_cells _ HlastIn) as [HlastCell HlastCol].
  destruct (q_cells _ HmIn) as [HmCell HmCol].
  pose proof (cell_Ok_row _ _ _ _ HlastCell) as HlastRow.
  pose proof (cell_Ok_row _ _ _ _ HmCell) as HmRow.
  destruct (possibleMoves_Ok codeMatrix lastPos v d HlastRow) as [moves Hmoves].
  rewrite Hmoves. simpl.
  assert (Hstep : if Nat.odd (length p) then col m = col lastPos
                  else row m = row lastPos).
  { destruct q_legal as [_ Hleg].
    apply (Hleg (length p) lastPos m).
    - unfold p. rewrite length_app. simpl. lia.
    - rewrite Hq. rewrite nth_error_app1.
      + unfold p. apply nth_error_snoc_last.
      + unfold p. rewrite length_app. simpl. lia.
    - rewrite Hq. rewrite nth_error_app2 by lia.
      now rewrite Nat.sub_diag. }
  assert (Hfresh : visited_has (posKey (row m) (col m)) v = false).
  { destruct (visited_has (posKey (row m) (col m)) v) eqn:E; [|reflexivity].
    exfalso. apply visited_has_In in E.
    destruct (Hv _ E) as [x [Hx Hk]]. apply posKey_inj in Hk as [Hkr Hkc].
    rewrite Hq, map_app in q_nodup.
    apply NoDup_app_remove_r in q_nodup as Hp.
    assert (Hdis : ~ In (row m, col m) (map (fun x => (row x, col x)) p)).
    { clear -q_nodup. intros Hin.
      induction (map (fun x => (row x, col x)) p) as [|y l IHl]; [destruct Hin|].
      simpl in q_nodup. inversion q_nodup as [|? ? Hy Hl]; subst.
      destruct Hin as [->|Hin]; [|now apply IHl].
      apply Hy. apply in_app_iff. right. now left. }
    apply Hdis. apply in_map_iff. exists x. split; [|exact Hx].
    now rewrite Hkr, Hkc. }
  assert (HmMoves : In m moves).
  { apply (possibleMoves_complete lastPos m v d moves Hmoves); auto.
    rewrite Hd. fold p. destruct (Nat.odd (length p)); exact Hstep. }
  pose proof (checkCompleted_NoDup requiredSequences (map value p) cs Hnd) as Hnd'.
  pose proof (checkCompleted_range requiredSequences (map value p) cs Hr) as Hr'.
  destruct (IH p m suf' (visited_add (posKey (row m) (col m)) v) (nextDir d)
               (newCompleted (map value p) cs)) as [s [Hs Hfull]]; auto.
  - rewrite Hq. now rewrite <- app_assoc.
  - intros k Hk. apply visited_add_In in Hk as [->|Hk].
    + exists m. split; [apply in_app_iff; right; now left|reflexivity].
    + destruct (Hv _ Hk) as [x [Hx Hkx]]. exists x. split; [|exact Hkx].
      apply in_app_iff. now left.
  - rewrite length_app. simpl. rewrite Nat.add_1_r, Nat.odd_succ, <- Nat.negb_odd.
    rewrite Hd. fold p. now destruct (Nat.odd (length p)).
  - lia.
  - rewrite length_app. simpl length. lia.
  - apply (tryMoves_finds_full _ _ _ m s); auto.
    + intros move Hin. apply js_sort_In in Hin.
      destruct (possibleMoves_spec _ _ _ _ _ _ Hmoves Hin) as [Hdir _].
      apply (explorePath_total codeMatrix requiredSequences bufferSize fuel p move).
      * destruct d; lia.
      * lia.
      * rewrite length_app. simpl length. lia.
    + now apply js_sort_In.
Qed.
End AlongPath.

(** X18: when some candidate path with fewer than [bufferSize] positions
    has every required sequence as a subsequence of its tokens, the solution
    that [solveBreachProtocol] returns completes all required sequences. *)
Theorem complete_solution_found (fuel : nat) (q : list Position) :
  1 <= fuel -> (bufferSize <= Z.of_nat fuel)%Z ->
  q <> [] ->
  candidatePath codeMatrix (bufferSize - 1) q ->
  (forall sequence, In sequence requiredSequences ->
                    isSubsequence (map value q) sequence = true) ->
  exists sol,
    solveBreachProtocol fuel codeMatrix requiredSequences bufferSize = Ok sol /\
    length (completedSequences sol) = length requiredSequences.
Proof.
  intros Hf Hb Hne [Hleg [Hnd [Hshort Hcells]]] Hall.
  destruct q as [|first suf]; [congruence|].
  assert (Hfirst : row first = 0) by (apply (proj1 Hleg); reflexivity).
  inversion Hcells as [|? ? [Hcell Hcol] _]; subst.
  destruct (explorePath_along (first :: suf) Hleg Hnd ltac:(lia) Hcells Hall fuel
              [] first suf [posKey 0 (col first)] DirCol [])
    as [s [Hs Hfull]]; auto.
  - intros k [<-|[]]. exists first. split; [now left|]. now rewrite Hfirst.
  - constructor.
  - intros i [].
  - simpl. lia.
  - destruct (candidates_Ok codeMatrix requiredSequences bufferSize fuel Hb Hf)
      as [sols Hsols].
    assert (Hin : In s sols).
    { unfold candidates in Hsols.
      apply (collect_In_conv _ _ _ (col first) _ Hsols);
        [apply in_seq; unfold size; lia|].
      rewrite Hfirst in Hcell. rewrite Hcell. simpl bind.
      destruct first as [r c x]. simpl in *. subst r. exact Hs. }
    destruct (solve_total codeMatrix requiredSequences bufferSize fuel Hb Hf)
      as [sol Hsol].
    exists sol. split; [exact Hsol|].
    apply Nat.le_antisymm.
    + destruct (solve_cases _ _ _ _ _ Hsol) as [[Hc _]|[sols' [Hs' Hin']]].
      * rewrite Hc in Hsols. injection Hsols as <-. destruct Hin.
      * destruct (candidates_In _ _ _ _ _ _ Hs' Hin') as [c [x [_ [_ He]]]].
        destruct (explorePath_completed_set codeMatrix requiredSequences bufferSize
                    _ _ _ _ _ _ (NoDup_nil _)
                    (fun i (F : In i []) => match F with end) He) as [H1 H2].
        now apply NoDup_range_length.
    + rewrite <- Hfull.
      unfold solve in Hsol. rewrite Hsols in Hsol. simpl in Hsol.
      destruct sols as [|s0 sols']; [destruct Hin|].
      rewrite (js_sort_ext _
                 (byKey (fun s => (- Z.of_nat (length (completedSequences s)))%Z)))
        in Hsol by (intros; unfold byKey; lia).
      destruct (js_sort _ (s0 :: sols')) as [|s1 t] eqn:E; [discriminate|].
      injection Hsol as ->.
      destruct (js_sort_head _ _ _ _ _ E) as [k [_ [Hmin _]]].
      specialize (Hmin s Hin). simpl in Hmin. lia.
Qed.
End Complete.

(** ** Edge cases of the solver *)

Lemma explorePath_no_sequences (codeMatrix : list (list jsval)) (bufferSize : Z)
      (fuel : nat) (p : list Position) (v : list string) (d : Direction) :
  explorePath codeMatrix [] bufferSize (S fuel) p v d [] = Ok (Some (mkSolution p [])).
Proof.
  rewrite explorePath_S.
  destruct (bufferSize <=? Z.of_nat (length p))%Z; reflexivity.
Qed.

Lemma collect_all_Some {A : Type} (body : nat -> result (option A)) (g : nat -> A)
      (idx : list nat) :
  (forall i, In i idx -> body i = Ok (Some (g i))) ->
  collect body idx = Ok (map g idx).
Proof.
  induction idx as [|i rest IH]; intros H; simpl; [reflexivity|].
  rewrite (H i (or_introl eq_refl)). simpl.
  rewrite IH; [reflexivity|]. intros j Hj. apply H. now right.
Qed.

(** X8: with no required sequence, [solveBreachProtocol] returns the first
    cell of the top row alone, with nothing completed, whatever the buffer
    size. *)
Theorem no_sequences_first_cell (codeMatrix : list (list jsval)) (bufferSize : Z)
        (fuel : nat) (line : list jsval) :
  nth_error codeMatrix 0 = Some line ->
  solveBreachProtocol (S fuel) codeMatrix [] bufferSize
  = Ok (mkSolution [mkPosition 0 0 (nth 0 line JUndefined)] []).
Proof.
  intros Hline. unfold solveBreachProtocol, solve.
  assert (Hc : candidates codeMatrix [] bufferSize (S fuel)
               = Ok (map (fun c => mkSolution
                                     [mkPosition 0 c (nth c line JUndefined)] [])
                         (seq 0 (size codeMatrix)))).
  { unfold candidates. apply collect_all_Some. intros c _.
    unfold cell. rewrite Hline.
    change (explorePath codeMatrix [] bufferSize (S fuel)
                        [mkPosition 0 c (nth c line JUndefined)] [posKey 0 c] DirCol []
            = Ok (Some (mkSolution [mkPosition 0 c (nth c line JUndefined)] []))).
    apply explorePath_no_sequences. }
  rewrite Hc. simpl bind.
  destruct codeMatrix as [|l0 rest]; [discriminate|].
  unfold size. simpl length. simpl seq. simpl map.
  rewrite (js_sort_ext _
             (byKey (fun s => (- Z.of_nat (length (completedSequences s)))%Z)))
    by (intros; unfold byKey; lia).
  match goal with
  | |- match js_sort ?f ?l with _ => _ end = _ =>
      destruct (js_sort f l) as [|s t] eqn:E
  end.
  { exfalso. eapply js_sort_nonempty; [|exact E]. discriminate. }
  destruct (js_sort_head _ _ _ _ _ E) as [k [Hk [_ Hfirst]]].
  destruct k as [|k].
  - simpl in Hk. now injection Hk as <-.
  - exfalso.
    assert (Hs : length (completedSequences s) = 0).
    { apply nth_error_In in Hk. simpl in Hk. destruct Hk as [<-|Hk]; [reflexivity|].
      apply in_map_iff in Hk as [c [<- _]]. reflexivity. }
    specialize (Hfirst 0 _ (Nat.lt_0_succ k) eq_refl). simpl in Hfirst. lia.
Qed.

Lemma matchCount_loop_scan (testPath sequence : list jsval) (seqIdx matchCount : nat) :
  matchCount_loop testPath sequence seqIdx matchCount + seqIdx
  = isSubsequence_loop testPath sequence seqIdx + matchCount.
Proof.
  revert seqIdx matchCount.
  induction testPath as [|t rest IH]; intros seqIdx matchCount; simpl; [lia|].
  destruct (seqIdx <? length sequence); [|lia].
  destruct (jsval_eqb t (nth seqIdx sequence JUndefined)).
  - specialize (IH (S seqIdx) (S matchCount)). lia.
  - apply IH.
Qed.

Section Score.
Variable requiredSequences : list (list jsval).
Variable currentPath : list jsval.
Variable nextValue : jsval.
Variable completed : list nat.

(** The body of the loop of [evaluateMove]. *)
Local Abbreviation step :=
  (fun (score : Z) (i : nat) =>
     if negb (set_has i completed) then
       if matchCount_loop (currentPath ++ [nextValue]) (nth i requiredSequences []) 0 0
          =? length (nth i requiredSequences [])
       then (score - 1000)%Z
       else (score - Z.of_nat (matchCount_loop (currentPath ++ [nextValue])
                                               (nth i requiredSequences []) 0 0) * 10)%Z
     else score).

Lemma score_step_le (score : Z) (i : nat) : (step score i <= score)%Z.
Proof.
  simpl. destruct (negb (set_has i completed)); [|lia].
  destruct (_ =? _); lia.
Qed.

Lemma score_fold_le (idx : list nat) (score : Z) :
  (fold_left step idx score <= score)%Z.
Proof.
  revert score. induction idx as [|i rest IH]; intros score; simpl; [lia|].
  etransitivity; [apply IH|]. apply score_step_le.
Qed.

Lemma score_fold_bonus (idx : list nat) (score : Z) (i : nat) :
  In i idx -> set_has i completed = false ->
  isSubsequence (currentPath ++ [nextValue]) (nth i requiredSequences []) = true ->
  (fold_left step idx score <= score - 1000)%Z.
Proof.
  revert score. induction idx as [|j rest IH]; intros score Hin Hc Hs; [destruct Hin|].
  simpl fold_left. destruct Hin as [->|Hin].
  - etransitivity; [apply score_fold_le|].
    simpl. rewrite Hc. simpl.
    pose proof (matchCount_loop_scan (currentPath ++ [nextValue])
                                     (nth i requiredSequences []) 0 0) as E.
    unfold isSubsequence in Hs. apply Nat.eqb_eq in Hs.
    replace (matchCount_loop (currentPath ++ [nextValue]) (nth i requiredSequences []) 0 0)
      with (length (nth i requiredSequences [])) by lia.
    rewrite Nat.eqb_refl. lia.
  - etransitivity; [now apply IH|].
    pose proof (score_step_le score j) as Hj. simpl in Hj. lia.
Qed.

(** X9: the score of a move is never positive, and it is at most -1000
    when the move's token completes a required sequence that is not yet in
    the completed set. *)
Theorem evaluateMove_score :
  (evaluateMove requiredSequences currentPath nextValue completed <= 0)%Z /\
  (forall i sequence,
      nth_error requiredSequences i = Some sequence ->
      set_has i completed = false ->
      isSubsequence (currentPath ++ [nextValue]) sequence = true ->
      (evaluateMove requiredSequences currentPath nextValue completed <= -1000)%Z).
Proof.
  split.
  - apply (score_fold_le (seq 0 (length requiredSequences)) 0).
  - intros i sequence Hi Hc Hs.
    apply (score_fold_bonus (seq 0 (length requiredSequences)) 0 i).
    + apply in_seq. split; [lia|]. simpl.
      apply nth_error_Some. rewrite Hi. discriminate.
    + exact Hc.
    + now rewrite (nth_error_nth _ _ [] Hi).
Qed.
End Score.

Lemma scan_refl (array : list jsval) : scan array array = [].
Proof.
  induction array as [|a rest IH]; simpl; [reflexivity|].
  now rewrite jsval_eqb_refl.
Qed.

(** X10: edge cases of [isSubsequence]: the empty sequence is a subsequence
    of every array, only the empty sequence is one of the empty array, every
    array is a subsequence of itself, and a subsequence is never longer than
    the array. *)
Theorem isSubsequence_edges (array subsequence : list jsval) :
  isSubsequence array [] = true /\
  (isSubsequence [] subsequence = true <-> subsequence = []) /\
  isSubsequence array array = true /\
  (isSubsequence array subsequence = true -> length subsequence <= length array).
Proof.
  repeat split.
  - apply isSubsequence_scan, scan_nil_r.
  - intros H. now apply isSubsequence_scan in H.
  - intros ->. reflexivity.
  - apply isSubsequence_scan, scan_refl.
  - apply isSubsequence_length.
Qed.

(** ** The OCR command line *)

Lemma counts_incr_keys (value : nat) (counts : list (nat * nat)) (k : nat) :
  In k (map fst (counts_incr value counts)) <-> k = value \/ In k (map fst counts).
Proof.
  induction counts as [|[k0 c0] rest IH]; simpl.
  - intuition.
  - destruct (Nat.eqb_spec value k0) as [->|Hne]; simpl; [intuition|].
    destruct (value <? k0); simpl; [intuition|].
    rewrite IH. intuition.
Qed.

Lemma counts_incr_sorted (value : nat) (counts : list (nat * nat)) :
  StronglySorted lt (map fst counts) ->
  StronglySorted lt (map fst (counts_incr value counts)).
Proof.
  induction counts as [|[k0 c0] rest IH]; simpl; intros Hs.
  - repeat constructor.
  - inversion Hs as [|? ? Hs' Hall]; subst.
    destruct (Nat.eqb_spec value k0) as [->|Hne]; simpl; [now constructor|].
    destruct (Nat.ltb_spec value k0) as [Hlt|Hge]; simpl.
    + constructor; [exact Hs|].
      constructor; [exact Hlt|].
      eapply Forall_impl; [|exact Hall]. simpl. lia.
    + constructor; [now apply IH|].
      apply Forall_forall. intros k Hk.
      apply counts_incr_keys in Hk as [->|Hk]; [lia|].
      rewrite Forall_forall in Hall. now apply Hall.
Qed.

Lemma counts_get_absent (value : nat) (counts : list (nat * nat)) :
  ~ In value (map fst counts) -> counts_get value counts = 0.
Proof.
  induction counts as [|[k0 c0] rest IH]; simpl; intros H; [reflexivity|].
  destruct (Nat.eqb_spec value k0) as [->|Hne]; [intuition|].
  apply IH. intuition.
Qed.

Lemma counts_get_incr (value k : nat) (counts : list (nat * nat)) :
  StronglySorted lt (map fst counts) ->
  counts_get k (counts_incr value counts)
  = if k =? value then counts_get k counts + 1 else counts_get k counts.
Proof.
  induction counts as [|[k0 c0] rest IH]; simpl; intros Hs.
  - destruct (k =? value); reflexivity.
  - inversion Hs as [|? ? Hs' Hall]; subst.
    destruct (Nat.eqb_spec value k0) as [->|Hne]; simpl.
    + destruct (Nat.eqb_spec k k0); reflexivity.
    + destruct (Nat.ltb_spec value k0) as [Hlt|Hge]; simpl.
      * destruct (Nat.eqb_spec k value) as [->|Hkv].
        -- destruct (Nat.eqb_spec value k0); [lia|].
           rewrite counts_get_absent; [reflexivity|].
           intros Hin. rewrite Forall_forall in Hall. specialize (Hall _ Hin). lia.
        -- reflexivity.
      * destruct (Nat.eqb_spec k k0) as [->|Hk0].
        -- destruct (Nat.eqb_spec k0 value); [lia|reflexivity].
        -- now apply IH.
Qed.

Lemma counts_incr_positive (value : nat) (counts : list (nat * nat)) :
  Forall (fun kc => 1 <= snd kc) counts ->
  Forall (fun kc => 1 <= snd kc) (counts_incr value counts).
Proof.
  induction counts as [|[k0 c0] rest IH]; simpl; intros H.
  - repeat constructor.
  - inversion H as [|? ? H0 H']; subst.
    destruct (value =? k0); [constructor; simpl in *; [lia|exact H']|].
    destruct (value <? k0); [repeat constructor; simpl in *; auto|].
    constructor; auto.
Qed.

(** What the loop of [findMostCommon] leaves in [counts]. *)
Lemma counts_fold (arr : list nat) :
  forall counts,
    StronglySorted lt (map fst counts) ->
    Forall (fun kc => 1 <= snd kc) counts ->
    let final := fold_left (fun counts value => counts_incr value counts) arr counts in
    StronglySorted lt (map fst final) /\
    Forall (fun kc => 1 <= snd kc) final /\
    forall k, counts_get k final = counts_get k counts + count_occ Nat.eq_dec arr k.
Proof.
  induction arr as [|a arr IH]; intros counts Hs Hp; simpl.
  - repeat split; auto.
  - destruct (IH (counts_incr a counts) (counts_incr_sorted a counts Hs)
                 (counts_incr_positive a counts Hp)) as [H1 [H2 H3]].
    repeat split; auto.
    intros k. rewrite H3, (counts_get_incr a k counts Hs).
    destruct (Nat.eq_dec a k) as [->|Hne].
    + rewrite Nat.eqb_refl. lia.
    + destruct (Nat.eqb_spec k a); [congruence|lia].
Qed.

Lemma counts_get_In (counts : list (nat * nat)) (k c : nat) :
  StronglySorted lt (map fst counts) ->
  In (k, c) counts -> counts_get k counts = c.
Proof.
  induction counts as [|[k0 c0] rest IH]; simpl; intros Hs Hin; [destruct Hin|].
  inversion Hs as [|? ? Hs' Hall]; subst.
  destruct Hin as [[= -> ->]|Hin].
  - now rewrite Nat.eqb_refl.
  - destruct (Nat.eqb_spec k k0) as [->|Hne]; [|now apply IH].
    rewrite Forall_forall in Hall.
    assert (k0 < k0); [|lia].
    apply Hall. apply in_map_iff. now exists (k0, c).
Qed.

Lemma counts_In_get (counts : list (nat * nat)) (k : nat) :
  1 <= counts_get k counts -> In (k, counts_get k counts) counts.
Proof.
  induction counts as [|[k0 c0] rest IH]; simpl; intros H; [lia|].
  destruct (Nat.eqb_spec k k0) as [->|Hne]; [now left|right; now apply IH].
Qed.

Lemma sorted_nth_lt (l : list nat) (i j a b : nat) :
  StronglySorted lt l -> nth_error l i = Some a -> nth_error l j = Some b ->
  a < b -> i < j.
Proof.
  intros Hs. revert i j. induction Hs as [|x l Hs IH Hall]; intros i j Hi Hj Hab.
  - now destruct i.
  - rewrite Forall_forall in Hall.
    destruct i as [|i], j as [|j]; simpl in *.
    + injection Hi as ->. injection Hj as ->. lia.
    + lia.
    + injection Hj as ->. apply nth_error_In in Hi. specialize (Hall _ Hi). lia.
    + apply -> Nat.succ_lt_mono. now apply IH.
Qed.

(** X11: on an empty array [findMostCommon] raises; otherwise it returns
    the decimal string (not the number) of a value that occurs most often
    in the array, the smallest such value when several tie.  (Lengths are
    below 2^32 - 1, where keys enumerate in numeric order.) *)
Theorem findMostCommon_spec (arr : list nat) :
  (arr = [] -> findMostCommon arr = TypeError) /\
  (arr <> [] ->
   Forall (fun n => (Z.of_nat n < 4294967295)%Z) arr ->
   exists v,
     findMostCommon arr = Ok (numberToString v) /\
     In v arr /\
     (forall w, count_occ Nat.eq_dec arr w <= count_occ Nat.eq_dec arr v) /\
     (forall w, In w arr ->
                count_occ Nat.eq_dec arr w = count_occ Nat.eq_dec arr v -> v <= w)).
Proof.
  split; [intros ->; reflexivity|].
  intros Hne _. unfold findMostCommon.
  destruct (counts_fold arr [] (SSorted_nil _) (Forall_nil _)) as [Hs [Hp Hget]].
  simpl in Hs, Hp, Hget.
  set (C := fold_left (fun counts value => counts_incr value counts) arr []) in *.
  rewrite (js_sort_ext _ (byKey (fun e : string * nat => (- Z.of_nat (snd e))%Z)))
    by (intros; unfold byKey; lia).
  destruct (js_sort _ (entries C)) as [|e t] eqn:E.
  { exfalso. destruct arr as [|a arr']; [congruence|].
    assert (Ha : 1 <= counts_get a C).
    { rewrite Hget. simpl. destruct (Nat.eq_dec a a); [lia|congruence]. }
    apply counts_In_get in Ha.
    eapply js_sort_nonempty; [|exact E].
    unfold entries. intros Hnil. apply map_eq_nil in Hnil.
    rewrite Hnil in Ha. destruct Ha. }
  destruct (js_sort_head _ _ _ _ _ E) as [k0 [Hk0 [Hmin Hfirst]]].
  unfold entries in Hk0. rewrite nth_error_map in Hk0.
  destruct (nth_error C k0) as [[v c]|] eqn:HC; [|discriminate].
  simpl in Hk0. injection Hk0 as <-. simpl.
  assert (Hc : c = count_occ Nat.eq_dec arr v).
  { rewrite <- Hget. symmetry. apply counts_get_In; [exact Hs|].
    now apply nth_error_In in HC. }
  assert (Hpos : 1 <= c).
  { rewrite Forall_forall in Hp. apply nth_error_In in HC.
    apply (Hp _ HC). }
  assert (Hle : forall w, count_occ Nat.eq_dec arr w <= c).
  { intros w. rewrite <- Hget.
    destruct (counts_get w C) as [|n] eqn:Hw; [lia|].
    assert (Hin : In (w, counts_get w C) C) by (apply counts_In_get; lia).
    specialize (Hmin (numberToString w, counts_get w C)).
    simpl in Hmin. rewrite <- Hw.
    assert (In (numberToString w, counts_get w C) (entries C)).
    { unfold entries. apply in_map_iff. now exists (w, counts_get w C). }
    specialize (Hmin H). lia. }
  exists v. split; [reflexivity|]. split; [|split].
  - apply (count_occ_In Nat.eq_dec). lia.
  - intros w. rewrite <- Hc. apply Hle.
  - intros w Hw Heq.
    destruct (Nat.lt_ge_cases w v) as [Hlt|Hge]; [exfalso|exact Hge].
    assert (Hin : In (w, counts_get w C) C).
    { apply counts_In_get. rewrite Hget.
      apply (count_occ_In Nat.eq_dec) in Hw. lia. }
    apply In_nth_error in Hin as [j Hj].
    assert (Hjk : j < k0).
    { apply (sorted_nth_lt (map fst C) j k0 w v Hs); [| |exact Hlt].
      - rewrite nth_error_map, Hj. reflexivity.
      - rewrite nth_error_map, HC. reflexivity. }
    specialize (Hfirst j (numberToString w, counts_get w C) Hjk).
    unfold entries in Hfirst. rewrite nth_error_map, Hj in Hfirst.
    specialize (Hfirst eq_refl). simpl in Hfirst.
    rewrite Hget in Hfirst. lia.
Qed.

Lemma findMostCommon_Ok (arr : list nat) :
  arr <> [] -> exists key, findMostCommon arr = Ok key.
Proof.
  intros Hne. unfold findMostCommon.
  destruct (counts_fold arr [] (SSorted_nil _) (Forall_nil _)) as [_ [_ Hget]].
  simpl in Hget.
  destruct (js_sort _ _) as [|e t] eqn:E; [|eauto].
  exfalso. destruct arr as [|a arr']; [congruence|].
  eapply js_sort_nonempty; [|exact E].
  unfold entries. intros Hnil. apply map_eq_nil in Hnil.
  specialize (Hget a). rewrite Hnil in Hget. simpl in Hget.
  destruct (Nat.eq_dec a a); [lia|congruence].
Qed.

Lemma filter_none {A : Type} (f : A -> bool) (l : list A) :
  (forall x, f x = false) -> filter f l = [].
Proof.
  intros H. induction l as [|x l IH]; simpl; [reflexivity|]. now rewrite H.
Qed.


Lemma filter_Forall_false {A : Type} (f : A -> bool) (l : list A) :
  Forall (fun x => f x = false) l -> filter f l = [].
Proof.
  induction 1 as [|x l Hx _ IH]; simpl; [reflexivity|]. now rewrite Hx.
Qed.

Lemma cleanMatrix_some_row (matrix : list (list jsval)) :
  Exists (fun row => includes unknownCode row = false) matrix ->
  cleanMatrix matrix = Ok ([], true).
Proof.
  intros H. unfold cleanMatrix.
  set (filtered := filter (fun row => negb (includes unknownCode row)) matrix).
  destruct (findMostCommon_Ok (map (fun row : list jsval => length row) filtered))
    as [key ->].
  - intros Hnil. apply map_eq_nil in Hnil.
    apply Exists_exists in H as [row [Hin Hrow]].
    assert (Hf : In row filtered).
    { apply filter_In. split; [exact Hin|]. now rewrite Hrow. }
    rewrite Hnil in Hf. destruct Hf.
  - simpl. now rewrite filter_none by reflexivity.
Qed.

(** X12: [cleanMatrix] never keeps a row.  When some row has no ['??'] it
    returns the empty matrix, with the warning about too few rows, because
    line 133 compares a row length with the string that [findMostCommon]
    returns; when every row has a ['??'], or there is no row, it raises. *)
Theorem cleanMatrix_keeps_no_row (matrix : list (list jsval)) :
  (Exists (fun row => includes unknownCode row = false) matrix ->
   cleanMatrix matrix = Ok ([], true)) /\
  (Forall (fun row => includes unknownCode row = true) matrix ->
   cleanMatrix matrix = TypeError).
Proof.
  split; [apply cleanMatrix_some_row|].
  intros H. unfold cleanMatrix.
  rewrite filter_Forall_false; [reflexivity|].
  eapply Forall_impl; [|exact H]. simpl. intros row ->. reflexivity.
Qed.


(** ** The interactive command line *)

Section CommandLineFacts.
Variable parseInt : string -> option Z.
Variable splitTokens : string -> list string.

Lemma readRows_rows (size : Z) (answers : list string) :
  forall remaining codeMatrix matrix rest,
    readRows splitTokens size remaining answers codeMatrix = Some (matrix, rest) ->
    length matrix = length codeMatrix + remaining /\
    (Forall (fun row => Z.of_nat (length row) = size) codeMatrix ->
     Forall (fun row => Z.of_nat (length row) = size) matrix).
Proof.
  induction answers as [|rowStr answers IH]; intros remaining codeMatrix matrix rest H.
  - destruct remaining; simpl in H; [|discriminate].
    injection H as <- <-. split; [lia|auto].
  - destruct remaining as [|remaining']; simpl in H.
    + injection H as <- <-. split; [lia|auto].
    + destruct (Z.eqb_spec (Z.of_nat (length (splitTokens rowStr))) size) as [E|E];
        simpl in H.
      * destruct (IH _ _ _ _ H) as [Hl Hf].
        rewrite length_app in Hl. simpl in Hl. split; [lia|].
        intros Hc. apply Hf. apply Forall_app. split; [exact Hc|].
        constructor; [exact E|constructor].
      * apply (IH _ _ _ _ H).
Qed.

Lemma readSequences_sequences (answers : list string) :
  forall remaining requiredSequences sequences rest,
    readSequences splitTokens remaining answers requiredSequences
    = Some (sequences, rest) ->
    length sequences = length requiredSequences + remaining /\
    (Forall (fun sequence => sequence <> []) requiredSequences ->
     Forall (fun sequence => sequence <> []) sequences).
Proof.
  induction answers as [|sequenceStr answers IH];
    intros remaining requiredSequences sequences rest H.
  - destruct remaining; simpl in H; [|discriminate].
    injection H as <- <-. split; [lia|auto].
  - destruct remaining as [|remaining']; simpl in H.
    + injection H as <- <-. split; [lia|auto].
    + destruct (Nat.ltb_spec (length (splitTokens sequenceStr)) 1) as [E|E].
      * apply (IH _ _ _ _ H).
      * destruct (IH _ _ _ _ H) as [Hl Hf].
        rewrite length_app in Hl. simpl in Hl. split; [lia|].
        intros Hc. apply Hf. apply Forall_app. split; [exact Hc|].
        constructor; [|constructor].
        intros Hnil. rewrite Hnil in E. simpl in E. lia.
Qed.

(** X15: when [main] reaches the call of the solver, the matrix is square
    with at least two rows, there is at least one required sequence and
    none is empty; and when the message "Using default (7)" was printed,
    the buffer size passed is not 7 but the invalid value that was typed. *)
Theorem main_solver_call (answers : list string) (m seqs : list (list jsval))
        (b : option Z) (warned : bool) :
  main parseInt splitTokens answers = Solve m seqs b warned ->
  squareGrid m /\ 2 <= length m /\
  1 <= length seqs /\ Forall (fun sequence => sequence <> []) seqs /\
  (warned = true -> b = None \/ exists z, b = Some z /\ (z < 1)%Z).
Proof.
  unfold main. intros H.
  destruct answers as [|sizeStr answers]; [discriminate|].
  destruct (parseInt sizeStr) as [size|]; [|discriminate].
  destruct (Z.ltb_spec size 2) as [Hs|Hs]; [discriminate|].
  destruct (readRows splitTokens size (Z.to_nat size) answers [])
    as [[codeMatrix answers1]|] eqn:Hrows; [|discriminate].
  destruct answers1 as [|numStr answers1]; [discriminate|].
  destruct (parseInt numStr) as [numSequences|]; [|discriminate].
  destruct (Z.ltb_spec numSequences 1) as [Hn|Hn]; [discriminate|].
  destruct (readSequences splitTokens (Z.to_nat numSequences) answers1 [])
    as [[requiredSequences answers2]|] eqn:Hseqs; [|discriminate].
  destruct answers2 as [|bufferSizeStr answers2]; [discriminate|].
  injection H as <- <- <- <-.
  destruct (readRows_rows _ _ _ _ _ _ Hrows) as [Hlen Hall].
  destruct (readSequences_sequences _ _ _ _ _ Hseqs) as [Hslen Hsall].
  simpl in Hlen, Hslen. specialize (Hall (Forall_nil _)). specialize (Hsall (Forall_nil _)).
  repeat split.
  - unfold squareGrid. rewrite length_map, Forall_map.
    eapply Forall_impl; [|exact Hall]. simpl. intros row Hrow.
    rewrite length_map. lia.
  - rewrite length_map. lia.
  - rewrite length_map. lia.
  - rewrite Forall_map. eapply Forall_impl; [|exact Hsall]. simpl.
    intros sequence Hne Hnil. apply map_eq_nil in Hnil. contradiction.
  - destruct bufferSizeStr as [|c rest].
    + discriminate.
    + destruct (parseInt (String c rest)) as [z|]; [|now left].
      intros Hw. right. exists z. split; [reflexivity|]. now apply Z.ltb_lt.
Qed.
End CommandLineFacts.

(** ** The further properties at concrete inputs *)

Lemma returned_path_no_revisit_witness :
  solve gridA [[BB]] 3 3 = Ok (mkSolution pathAB [0]) /\
  NoDup (map (fun q => (row q, col q)) pathAB).
Proof.
  split; [vm_compute; reflexivity|].
  apply (returned_path_no_revisit gridA [[BB]] 3 3 (mkSolution pathAB [0])).
  vm_compute. reflexivity.
Defined.

Lemma returned_path_cells_witness :
  solve gridA [[BB]] 3 3 = Ok (mkSolution pathAB [0]) /\
  Forall (fun q => row q < size gridA /\ col q < size gridA /\
                   cell gridA (row q) (col q) = Ok (value q)) pathAB.
Proof.
  split; [vm_compute; reflexivity|].
  apply (returned_path_cells gridA [[BB]] 3 3 (mkSolution pathAB [0])).
  vm_compute. reflexivity.
Defined.

Lemma returned_completed_set_witness :
  solve gridA [[BB]] 3 3 = Ok (mkSolution pathAB [0]) /\
  NoDup [0] /\ (forall i, In i [0] -> i < 1) /\ 1 <= 1.
Proof.
  split; [vm_compute; reflexivity|].
  apply (returned_completed_set gridA [[BB]] 3 3 (mkSolution pathAB [0])).
  vm_compute. reflexivity.
Defined.

Lemma long_sequence_never_completed_witness :
  solve gridA [[BB]] 3 3 = Ok (mkSolution pathAB [0]) /\
  (Z.of_nat (length [BB]) < 3)%Z.
Proof.
  split; [vm_compute; reflexivity|].
  apply (long_sequence_never_completed gridA [[BB]] 3 3 (mkSolution pathAB [0]))
    with (i := 0); [vm_compute; reflexivity|now left|reflexivity].
Defined.

Lemma complete_solution_below_buffer_witness :
  [[BB]] <> [] /\
  solve gridA [[BB]] 3 3 = Ok (mkSolution pathAB [0]) /\
  (Z.of_nat (length pathAB) < 3)%Z.
Proof.
  split; [discriminate|]. split; [vm_compute; reflexivity|].
  apply (complete_solution_below_buffer gridA [[BB]] 3 3 (mkSolution pathAB [0]));
    [discriminate|vm_compute; reflexivity|reflexivity].
Defined.

Lemma explorePath_returns_best_child_witness :
  possibleMoves gridC (mkPosition 0 0 AA) [posKey 0 0] DirCol
  = Ok [mkPosition 1 0 CC; mkPosition 2 0 BB] /\
  explorePath gridC [[AA; BB]; [ZZ]] 3 3 [mkPosition 0 0 AA] [posKey 0 0] DirCol []
  = Ok (Some (mkSolution pathCBest [0])) /\
  explorePath gridC [[AA; BB]; [ZZ]] 3 2 ([mkPosition 0 0 AA] ++ [mkPosition 1 0 CC])
              (visited_add (posKey 1 0) [posKey 0 0]) DirRow
              (checkCompleted [[AA; BB]; [ZZ]] (map value [mkPosition 0 0 AA]) [])
  = Ok (Some (mkSolution pathCOther [])) /\
  length (completedSequences (mkSolution pathCOther []))
  <= length (completedSequences (mkSolution pathCBest [0])) /\
  (length (completedSequences (mkSolution pathCBest [0])) < 2 ->
   length (completedSequences (mkSolution pathCOther []))
   = length (completedSequences (mkSolution pathCBest [0])) ->
   length pathCBest <= length pathCOther).
Proof.
  split; [vm_compute; reflexivity|].
  split; [vm_compute; reflexivity|].
  split; [vm_compute; reflexivity|].
  apply (explorePath_returns_best_child
           gridC [[AA; BB]; [ZZ]] 3 2 [mkPosition 0 0 AA] (mkPosition 0 0 AA) [posKey 0 0]
           DirCol [] [mkPosition 1 0 CC; mkPosition 2 0 BB] (mkSolution pathCBest [0]))
    with (move := mkPosition 1 0 CC).
  - constructor.
  - intros i [].
  - simpl. lia.
  - vm_compute. discriminate.
  - reflexivity.
  - vm_compute. reflexivity.
  - vm_compute. reflexivity.
  - now left.
  - vm_compute. reflexivity.
Defined.

Lemma empty_path_iff_no_candidate_witness :
  solve gridA [[ZZ]] 5 5 = Ok emptySolution /\
  (path emptySolution = [] <-> candidates gridA [[ZZ]] 5 5 = Ok []).
Proof.
  split; [vm_compute; reflexivity|].
  apply (empty_path_iff_no_candidate gridA [[ZZ]] 5 5 emptySolution).
  vm_compute. reflexivity.
Defined.

Lemma no_sequences_first_cell_witness :
  nth_error gridA 0 = Some [AA; BB] /\
  solveBreachProtocol 1 gridA [] 7 = Ok (mkSolution [mkPosition 0 0 AA] []).
Proof.
  split; [reflexivity|].
  apply (no_sequences_first_cell gridA 7 0 [AA; BB]). reflexivity.
Defined.

Lemma evaluateMove_score_witness :
  nth_error [[AA; BB]] 0 = Some [AA; BB] /\
  set_has 0 [] = false /\
  isSubsequence ([AA] ++ [BB]) [AA; BB] = true /\
  (evaluateMove [[AA; BB]] [AA] BB [] <= -1000)%Z.
Proof.
  split; [reflexivity|]. split; [reflexivity|]. split; [reflexivity|].
  apply (proj2 (evaluateMove_score [[AA; BB]] [AA] BB []) 0 [AA; BB]); reflexivity.
Defined.

Lemma isSubsequence_edges_witness :
  isSubsequence [AA; BB; AA] [AA; AA] = true /\ length [AA; AA] <= length [AA; BB; AA].
Proof.
  split; [reflexivity|].
  apply (isSubsequence_edges [AA; BB; AA] [AA; AA]). reflexivity.
Defined.

Lemma findMostCommon_spec_witness :
  exists v,
    findMostCommon [7; 7; 6; 7; 6; 6; 5] = Ok (numberToString v) /\
    In v [7; 7; 6; 7; 6; 6; 5] /\
    (forall w, count_occ Nat.eq_dec [7; 7; 6; 7; 6; 6; 5] w
               <= count_occ Nat.eq_dec [7; 7; 6; 7; 6; 6; 5] v) /\
    (forall w, In w [7; 7; 6; 7; 6; 6; 5] ->
               count_occ Nat.eq_dec [7; 7; 6; 7; 6; 6; 5] w
               = count_occ Nat.eq_dec [7; 7; 6; 7; 6; 6; 5] v -> v <= w).
Proof.
  apply (proj2 (findMostCommon_spec [7; 7; 6; 7; 6; 6; 5])); [discriminate|].
  repeat constructor.
Defined.

Lemma cleanMatrix_keeps_no_row_witness :
  Exists (fun row => includes unknownCode row = false) gridA /\
  cleanMatrix gridA = Ok ([], true).
Proof.
  assert (H : Exists (fun row => includes unknownCode row = false) gridA)
    by (left; reflexivity).
  split; [exact H|].
  apply (proj1 (cleanMatrix_keeps_no_row gridA) H).
Defined.


Lemma main_solver_call_witness :
  main sessionParseInt sessionSplit sessionAnswers
  = Solve gridA [[AA; BB]] (Some 0%Z) true /\
  squareGrid gridA /\ 2 <= length gridA.
Proof.
  split; [vm_compute; reflexivity|].
  destruct (main_solver_call sessionParseInt sessionSplit sessionAnswers
                             gridA [[AA; BB]] (Some 0%Z) true)
    as [Hsq [Hlen _]]; [vm_compute; reflexivity|].
  split; [exact Hsq|exact Hlen].
Defined.

Lemma checkCompleted_closed_form_witness :
  NoDup [1] /\ NoDup (checkCompleted [[AA]; [BB]] [AA] [1]).
Proof.
  assert (H : NoDup [1]) by (repeat constructor; intros []).
  split; [exact H|].
  apply (proj2 (checkCompleted_closed_form [[AA]; [BB]] [AA] [1]) H).
Defined.

Lemma explorePath_extends_witness :
  (exists positions, pathABA = [mkPosition 0 0 AA] ++ positions) /\
  (exists added, @nil nat = [] ++ added).
Proof.
  apply (explorePath_extends gridA [[ZZ]] 3 3 [mkPosition 0 0 AA] [posKey 0 0]
                             DirCol [] (mkSolution pathABA [])).
  vm_compute. reflexivity.
Defined.

Lemma complete_solution_found_witness :
  exists sol,
    solveBreachProtocol 3 gridA [[BB]] 3 = Ok sol /\
    length (completedSequences sol) = length [[BB]].
Proof.
  apply (complete_solution_found gridA [[BB]] 3 3 pathAB); try lia.
  - discriminate.
  - unfold candidatePath, pathAB. repeat split.
    + intros p0 [= <-]. reflexivity.
    + intros [|[|[|i]]] a b Hi Ha Hb; simpl in *; try lia; try discriminate.
      injection Ha as <-. injection Hb as <-. reflexivity.
    + repeat constructor; simpl; intuition discriminate.
    + simpl. lia.
    + repeat constructor.
  - intros sequence [<-|[]]. reflexivity.
Defined.

(** ** When the returned path is empty *)

Section NonEmpty.
Variable codeMatrix : list (list jsval).
Variable requiredSequences : list (list jsval).
Variable bufferSize : Z.

Local Abbreviation N := (size codeMatrix).
Local Abbreviation explore := (explorePath codeMatrix requiredSequences bufferSize).
Local Abbreviation newCompleted := (checkCompleted requiredSequences).
Local Abbreviation total := (length requiredSequences).
Local Abbreviation cellOf :=
  (fun x => cell codeMatrix (row x) (col x) = Ok (value x) /\ col x < length codeMatrix).

Lemma tryMoves_some_child (f : Position -> result (option Solution))
      (moves : list Position) (best : option Solution) :
  (forall move, In move moves -> exists r, f move = Ok r) ->
  best <> None \/ (exists m s, In m moves /\ f m = Ok (Some s)) ->
  exists s', tryMoves requiredSequences f moves best = Ok (Some s').
Proof.
  revert best. induction moves as [|h rest IH]; intros best Hok Hsome; simpl.
  - destruct Hsome as [Hb|[m [s [[] _]]]]. destruct best; [eauto|congruence].
  - destruct (Hok h (or_introl eq_refl)) as [r Hr]. rewrite Hr. simpl.
    assert (Hrest : forall move, In move rest -> exists r, f move = Ok r)
      by (intros; apply Hok; now right).
    destruct r as [sol|].
    + destruct (length (completedSequences sol) =? total); [eauto|].
      apply IH; [exact Hrest|]. left.
      destruct (better sol best) eqn:E; [discriminate|].
      now apply better_false in E.
    + apply IH; [exact Hrest|].
      destruct Hsome as [Hb|[m [s [[<-|Hin] Hm]]]]; [now left| |right; eauto].
      rewrite Hm in Hr. discriminate.
Qed.

(** The next position of a candidate path is among the possible moves of
    the call on the positions before it. *)
Lemma next_move_possible (q pre suf : list Position) (lastPos m : Position)
      (v : list string) (d : Direction) (moves : list Position) :
  movementLegal q ->
  NoDup (map (fun x => (row x, col x)) q) ->
  Forall cellOf q ->
  q = (pre ++ [lastPos]) ++ m :: suf ->
  (forall k, In k v ->
             exists x, In x (pre ++ [lastPos]) /\ k = posKey (row x) (col x)) ->
  d = (if Nat.odd (length (pre ++ [lastPos])) then DirCol else DirRow) ->
  possibleMoves codeMatrix lastPos v d = Ok moves ->
  In m moves.
Proof.
  intros [_ Hleg] Hnd Hcells Hq Hv Hd Hmoves.
  set (p := pre ++ [lastPos]) in *.
  assert (HmIn : In m q) by (rewrite Hq; apply in_app_iff; right; now left).
  rewrite Forall_forall in Hcells.
  destruct (Hcells _ HmIn) as [HmCell HmCol].
  pose proof (cell_Ok_row _ _ _ _ HmCell) as HmRow.
  assert (Hstep : if Nat.odd (length p) then col m = col lastPos
                  else row m = row lastPos).
  { apply (Hleg (length p) lastPos m).
    - unfold p. rewrite length_app. simpl. lia.
    - rewrite Hq. rewrite nth_error_app1.
      + unfold p. apply nth_error_snoc_last.
      + unfold p. rewrite length_app. simpl. lia.
    - rewrite Hq. rewrite nth_error_app2 by lia.
      now rewrite Nat.sub_diag. }
  apply (possibleMoves_complete codeMatrix lastPos m v d moves Hmoves); auto.
  - rewrite Hd. destruct (Nat.odd (length p)); exact Hstep.
  - destruct (visited_has (posKey (row m) (col m)) v) eqn:E; [|reflexivity].
    exfalso. apply visited_has_In in E.
    destruct (Hv _ E) as [x [Hx Hk]]. apply posKey_inj in Hk as [Hkr Hkc].
    rewrite Hq, map_app in Hnd.
    assert (Hdis : ~ In (row m, col m) (map (fun x => (row x, col x)) p)).
    { clear -Hnd. intros Hin.
      induction (map (fun x => (row x, col x)) p) as [|y l IHl]; [destruct Hin|].
      simpl in Hnd. inversion Hnd as [|? ? Hy Hl]; subst.
      destruct Hin as [->|Hin]; [|now apply IHl].
      apply Hy. apply in_app_iff. right. now left. }
    apply Hdis. apply in_map_iff. exists x. split; [|exact Hx].
    now rewrite Hkr, Hkc.
Qed.

(** A call on the first positions of a candidate path that reaches
    [bufferSize] positions does not return null. *)
Lemma explorePath_fills (q : list Position) (fuel : nat) :
  movementLegal q ->
  NoDup (map (fun x => (row x, col x)) q) ->
  Forall cellOf q ->
  (bufferSize <= Z.of_nat (length q))%Z ->
  forall pre lastPos suf v d cs,
    q = (pre ++ [lastPos]) ++ suf ->
    (forall k, In k v ->
               exists x, In x (pre ++ [lastPos]) /\ k = posKey (row x) (col x)) ->
    d = (if Nat.odd (length (pre ++ [lastPos])) then DirCol else DirRow) ->
    1 <= fuel ->
    (bufferSize - Z.of_nat (length (pre ++ [lastPos])) < Z.of_nat fuel)%Z ->
    exists sol, explore fuel (pre ++ [lastPos]) v d cs = Ok (Some sol).
Proof.
  intros Hleg Hnd Hcells Hlen.
  induction fuel as [|fuel IH]; intros pre lastPos suf v d cs Hq Hv Hd Hf Hm; [lia|].
  set (p := pre ++ [lastPos]) in *.
  assert (Hql : length q = length p + length suf) by (rewrite Hq; apply length_app).
  rewrite explorePath_S.
  destruct (Z.leb_spec bufferSize (Z.of_nat (length p))) as [Hb|Hb]; [eauto|].
  destruct (length (newCompleted (map value p) cs) =? total); [eauto|].
  destruct suf as [|m suf']; [simpl in Hql; lia|].
  unfold p at 1 2. rewrite nth_error_snoc_last. fold p.
  assert (HlastIn : In lastPos q).
  { rewrite Hq. apply in_app_iff. left. apply in_app_iff. right. now left. }
  pose proof Hcells as Hcells'. rewrite Forall_forall in Hcells'.
  destruct (Hcells' _ HlastIn) as [HlastCell _].
  pose proof (cell_Ok_row _ _ _ _ HlastCell) as HlastRow.
  destruct (possibleMoves_Ok codeMatrix lastPos v d HlastRow) as [moves Hmoves].
  rewrite Hmoves. simpl.
  pose proof (next_move_possible q pre suf' lastPos m v d moves
                                 Hleg Hnd Hcells Hq Hv Hd Hmoves) as HmMoves.
  destruct (IH p m suf' (visited_add (posKey (row m) (col m)) v) (nextDir d)
               (newCompleted (map value p) cs)) as [s Hs].
  - rewrite Hq. now rewrite <- app_assoc.
  - intros k Hk. apply visited_add_In in Hk as [->|Hk].
    + exists m. split; [apply in_app_iff; right; now left|reflexivity].
    + destruct (Hv _ Hk) as [x [Hx Hkx]]. exists x. split; [|exact Hkx].
      apply in_app_iff. now left.
  - rewrite length_app. simpl. rewrite Nat.add_1_r, Nat.odd_succ, <- Nat.negb_odd.
    rewrite Hd. fold p. now destruct (Nat.odd (length p)).
  - lia.
  - rewrite length_app. simpl length. lia.
  - apply tryMoves_some_child.
    + intros move Hin. apply js_sort_In in Hin.
      destruct (possibleMoves_spec _ _ _ _ _ _ Hmoves Hin) as [Hdir _].
      apply (explorePath_total codeMatrix requiredSequences bufferSize fuel p move).
      * destruct d; lia.
      * lia.
      * rewrite length_app. simpl length. lia.
    + right. exists m, s. split; [now apply js_sort_In|exact Hs].
Qed.

(** A candidate of the start column of a path gives [solve] a non-empty
    path. *)
Lemma solve_nonempty_of_candidate (fuel : nat) (first : Position) (s : Solution) :
  1 <= fuel -> (bufferSize <= Z.of_nat fuel)%Z ->
  row first = 0 -> cellOf first ->
  explore fuel [first] [posKey 0 (col first)] DirCol [] = Ok (Some s) ->
  exists sol, solve codeMatrix requiredSequences bufferSize fuel = Ok sol /\
              path sol <> [].
Proof.
  intros Hf Hb Hrow [Hcell Hcol] Hs.
  destruct (candidates_Ok codeMatrix requiredSequences bufferSize fuel Hb Hf)
    as [sols Hsols].
  assert (Hin : In s sols).
  { unfold candidates in Hsols.
    apply (collect_In_conv _ _ _ (col first) _ Hsols);
      [apply in_seq; unfold size; lia|].
    rewrite Hrow in Hcell. rewrite Hcell. simpl bind.
    destruct first as [r c x]. simpl in *. subst r. exact Hs. }
  destruct (solve_total codeMatrix requiredSequences bufferSize fuel Hb Hf)
    as [sol Hsol].
  exists sol. split; [exact Hsol|].
  destruct (solve_cases _ _ _ _ _ Hsol) as [[Hc _]|[sols' [Hs' Hin']]].
  - rewrite Hc in Hsols. injection Hsols as <-. destruct Hin.
  - destruct (candidates_In _ _ _ _ _ _ Hs' Hin') as [c [x [_ [_ He]]]].
    eapply explorePath_path_nonempty; [|exact He]. discriminate.
Qed.

Lemma all_indices_listed (l : list nat) (n : nat) :
  NoDup l -> (forall i, In i l -> i < n) -> length l = n ->
  forall i, i < n -> In i l.
Proof.
  intros Hnd Hr Hlen i Hi.
  apply (NoDup_length_incl Hnd (l' := seq 0 n)).
  - rewrite length_seq. lia.
  - intros j Hj. apply in_seq. specialize (Hr j Hj). lia.
  - apply in_seq. lia.
Qed.

(** What [solve] returns is a candidate path that fills the buffer or has
    every required sequence as a subsequence of its tokens. *)
Lemma solve_returns_candidate (fuel : nat) (sol : Solution) :
  (1 <= bufferSize)%Z ->
  solve codeMatrix requiredSequences bufferSize fuel = Ok sol ->
  path sol <> [] ->
  candidatePath codeMatrix bufferSize (path sol) /\
  (Z.of_nat (length (path sol)) = bufferSize \/
   ((Z.of_nat (length (path sol)) < bufferSize)%Z /\
    forall sequence, In sequence requiredSequences ->
                     isSubsequence (map value (path sol)) sequence = true)).
Proof.
  intros Hb1 H.
  apply (solve_invariant codeMatrix requiredSequences bufferSize
           (fun p v d cs =>
              (movementLegal p /\
               d = (if Nat.odd (length p) then DirCol else DirRow)) /\
              (NoDup (map (fun x => (row x, col x)) p) /\
               forall x, In x p -> In (posKey (row x) (col x)) v) /\
              Forall cellOf p /\
              (Z.of_nat (length p) <= bufferSize)%Z /\
              NoDup cs /\
              forall i, In i cs ->
                        i < total /\
                        isSubsequence (map value p) (nth i requiredSequences []) = true)
           (fun s =>
              path s <> [] ->
              candidatePath codeMatrix bufferSize (path s) /\
              (Z.of_nat (length (path s)) = bufferSize \/
               ((Z.of_nat (length (path s)) < bufferSize)%Z /\
                forall sequence, In sequence requiredSequences ->
                                 isSubsequence (map value (path s)) sequence = true))))
    with (fuel := fuel); [| | | | |exact H].
  - intros p v d cs [[Hleg _] [[Hnd _] [Hcells [Hle _]]]] Hge _. simpl.
    split; [repeat split; auto; apply Hleg|]. left. lia.
  - intros p v d cs [[Hleg _] [[Hnd _] [Hcells [Hle [Hcs Hsub]]]]] Hlt Hfull _. simpl.
    split; [repeat split; auto; apply Hleg|]. right. split; [exact Hlt|].
    intros sequence Hin. apply In_nth with (d := []) in Hin as [i [Hi <-]].
    assert (Hlisted : In i (newCompleted (map value p) cs)).
    { apply (all_indices_listed _ total); auto.
      - now apply checkCompleted_NoDup.
      - apply checkCompleted_range. intros j Hj. now apply Hsub. }
    apply checkCompleted_In in Hlisted as [Hl|[_ Hl]]; [now apply Hsub|exact Hl].
  - intros p' lastPos v d cs moves move
           [[[H0 Hstep] Hd] [[Hnd Hv] [Hcells [Hle [Hcs Hsub]]]]] Hlt Hm Hin.
    destruct (possibleMoves_spec _ _ _ _ _ _ Hm Hin) as [Hdir [Hfresh Hcell]].
    set (q := p' ++ [lastPos]) in *.
    assert (Hq : length q = S (length p')).
    { unfold q. rewrite length_app. simpl. lia. }
    assert (Hlast : cellOf lastPos).
    { rewrite Forall_forall in Hcells. apply Hcells.
      unfold q. apply in_app_iff. right. now left. }
    split; [split; [split|]|split; [split|split; [|split; [|split]]]].
    + intros p0 Hp0. apply H0.
      rewrite nth_error_app1 in Hp0 by lia. exact Hp0.
    + intros i a b Hi Ha Hb.
      destruct (Nat.lt_ge_cases i (length q)) as [Hlti|Hge].
      * rewrite nth_error_app1 in Ha by lia.
        rewrite nth_error_app1 in Hb by lia.
        now apply (Hstep i a b).
      * assert (i = length q) as ->.
        { apply Nat.le_antisymm; [|exact Hge].
          assert (nth_error (q ++ [move]) i <> None) as Hn by (rewrite Hb; discriminate).
          apply nth_error_Some in Hn. rewrite length_app in Hn. simpl in Hn. lia. }
        rewrite nth_error_app2 in Hb by lia.
        rewrite Nat.sub_diag in Hb. simpl in Hb. injection Hb as <-.
        rewrite nth_error_app1 in Ha by lia.
        rewrite Hq in Ha. unfold q in Ha.
        rewrite nth_error_app2 in Ha by lia.
        replace (S (length p') - 1 - length p') with 0 in Ha by lia.
        simpl in Ha. injection Ha as <-.
        rewrite Hd in Hdir.
        destruct (Nat.odd (length q)); tauto.
    + rewrite length_app. simpl. rewrite Nat.add_1_r, Nat.odd_succ.
      rewrite <- Nat.negb_odd. rewrite Hd.
      now destruct (Nat.odd (length q)).
    + rewrite map_app. simpl. apply NoDup_snoc; [exact Hnd|].
      intros Hc. apply in_map_iff in Hc as [x [Hx Hin']].
      injection Hx as Hr Hc.
      specialize (Hv x Hin'). rewrite Hr, Hc in Hv.
      apply visited_has_In in Hv. congruence.
    + intros x Hx. apply visited_add_In.
      apply in_app_iff in Hx as [Hx|[<-|[]]]; [right; now apply Hv|now left].
    + apply Forall_app. split; [exact Hcells|].
      constructor; [|constructor]. split; [exact Hcell|].
      destruct Hlast as [_ Hlc]. unfold size in Hdir. destruct d; lia.
    + rewrite length_app. simpl length. lia.
    + now apply checkCompleted_NoDup.
    + intros i Hi. rewrite map_app.
      apply checkCompleted_In in Hi as [Hi|[Hi Hs]].
      * destruct (Hsub i Hi) as [Hlti Hs]. split; [exact Hlti|].
        now apply isSubsequence_app.
      * split; [exact Hi|]. now apply isSubsequence_app.
  - intros c v Hc Hv. split; [split; [split|reflexivity]|split; [split|split; [|split; [|split]]]].
    + intros p0 Hp0. simpl in Hp0. now injection Hp0 as <-.
    + intros [|[|i]] a b Hi Ha Hb; simpl in *; try lia; discriminate.
    + simpl. constructor; [intros []|constructor].
    + intros x [<-|[]]. now left.
    + constructor; [|constructor]. simpl. split; [exact Hv|]. unfold size in Hc. lia.
    + simpl. lia.
    + constructor.
    + intros i [].
  - intros Hne. now elim Hne.
Qed.

(** C2, amended: [solveBreachProtocol] returns a solution whose path is not
    empty on every matrix of [N >= 1] rows with [bufferSize <= N]; and for
    every [bufferSize >= 1] the returned path is not empty exactly when some
    candidate path (top-row start, alternating column and row moves, no
    cell twice) has [bufferSize] positions or some shorter candidate path
    has every required sequence as a subsequence of its tokens. *)
Theorem solve_path_nonempty_iff (fuel : nat) :
  1 <= fuel -> (bufferSize <= Z.of_nat fuel)%Z ->
  (1 <= N -> (bufferSize <= Z.of_nat N)%Z ->
   exists sol,
     solveBreachProtocol fuel codeMatrix requiredSequences bufferSize = Ok sol /\
     path sol <> []) /\
  ((1 <= bufferSize)%Z ->
   exists sol,
     solveBreachProtocol fuel codeMatrix requiredSequences bufferSize = Ok sol /\
     (path sol <> [] <->
      (exists q, candidatePath codeMatrix bufferSize q /\
                 Z.of_nat (length q) = bufferSize) \/
      (exists q, q <> [] /\ candidatePath codeMatrix (bufferSize - 1) q /\
                 forall sequence, In sequence requiredSequences ->
                                  isSubsequence (map value q) sequence = true))).
Proof.
  intros Hf Hb. split.
  - intros HN HbN.
    destruct (solve_total codeMatrix requiredSequences bufferSize fuel Hb Hf)
      as [sol Hsol].
    exists sol. split; [exact Hsol|].
    destruct (solve_cases _ _ _ _ _ Hsol) as [[Hc _]|[sols [Hs Hin]]].
    + exfalso.
      destruct (cell_Ok codeMatrix 0 0 HN) as [x Hx].
      destruct (explorePath_not_null codeMatrix requiredSequences bufferSize fuel HbN
                  [] (mkPosition 0 0 x) [posKey 0 0] DirCol [])
        as [s Hs]; simpl; try lia.
      unfold candidates in Hc.
      eapply (collect_nonempty _ _ _ 0 s Hc); [apply in_seq; lia| |reflexivity].
      rewrite Hx. simpl. exact Hs.
    + destruct (candidates_In _ _ _ _ _ _ Hs Hin) as [c [x [_ [_ He]]]].
      eapply explorePath_path_nonempty; [|exact He]. discriminate.
  - intros Hb1.
    destruct (solve_total codeMatrix requiredSequences bufferSize fuel Hb Hf)
      as [sol Hsol].
    exists sol. split; [exact Hsol|]. split.
    + intros Hne.
      destruct (solve_returns_candidate fuel sol Hb1 Hsol Hne) as [Hcand [Hlen|[Hlt Hall]]].
      * left. exists (path sol). split; [exact Hcand|exact Hlen].
      * right. exists (path sol). split; [exact Hne|]. split; [|exact Hall].
        destruct Hcand as [Hleg [Hnd [_ Hcells]]]. repeat split; auto; try apply Hleg.
        lia.
    + assert (Hstart : forall q first suf s,
                 q = first :: suf -> movementLegal q -> Forall cellOf q ->
                 explore fuel [first] [posKey 0 (col first)] DirCol [] = Ok (Some s) ->
                 path sol <> []).
      { intros q first suf s -> Hleg Hcells Hs.
        assert (Hrow : row first = 0) by (apply (proj1 Hleg); reflexivity).
        inversion Hcells as [|? ? Hc _]; subst.
        destruct (solve_nonempty_of_candidate fuel first s Hf Hb Hrow Hc Hs)
          as [sol' [Hsol' Hne]].
        unfold solveBreachProtocol in Hsol.
        rewrite Hsol in Hsol'. now injection Hsol' as <-. }
      intros [[q [[Hleg [Hnd [_ Hcells]]] Hlen]]|[q [Hne [[Hleg [Hnd [Hshort Hcells]]] Hall]]]].
      * destruct q as [|first suf]; [simpl in Hlen; lia|].
        destruct (explorePath_fills (first :: suf) fuel Hleg Hnd Hcells ltac:(lia)
                    [] first suf [posKey 0 (col first)] DirCol [])
          as [s Hs]; auto.
        -- intros k [<-|[]]. exists first. split; [now left|].
           now rewrite (proj1 Hleg first eq_refl).
        -- simpl. lia.
        -- now apply (Hstart (first :: suf) first suf s).
      * destruct q as [|first suf]; [congruence|].
        destruct (explorePath_along codeMatrix requiredSequences bufferSize
                    (first :: suf) Hleg Hnd ltac:(lia) Hcells Hall fuel
                    [] first suf [posKey 0 (col first)] DirCol [])
          as [s [Hs _]]; auto.
        -- intros k [<-|[]]. exists first. split; [now left|].
           now rewrite (proj1 Hleg first eq_refl).
        -- constructor.
        -- intros i [].
        -- simpl. lia.
        -- now apply (Hstart (first :: suf) first suf s).
Qed.
End NonEmpty.

Lemma solve_path_nonempty_iff_witness :
  candidatePath gridA 4 pathABAB /\
  exists sol, solveBreachProtocol 4 gridA [[ZZ]] 4 = Ok sol /\ path sol <> [].
Proof.
  assert (Hc : candidatePath gridA 4 pathABAB).
  { unfold candidatePath, pathABAB. repeat split.
    - intros p0 [= <-]. reflexivity.
    - intros [|[|[|[|[|i]]]]] a b Hi Ha Hb; simpl in *; try lia; try discriminate;
        injection Ha as <-; injection Hb as <-; reflexivity.
    - repeat constructor; simpl; intuition discriminate.
    - simpl. lia.
    - repeat constructor. }
  split; [exact Hc|].
  destruct (proj2 (solve_path_nonempty_iff gridA [[ZZ]] 4 4 ltac:(lia) ltac:(lia))
                  ltac:(lia)) as [sol [Hsol Hiff]].
  exists sol. split; [exact Hsol|].
  apply Hiff. left. exists pathABAB. split; [exact Hc|reflexivity].
Defined.
